(** * The arena server: state, socket handlers and the 30 Hz game loop

    A shallow embedding of the socket.io game server (the [io.on("connection")]
    handlers and the [setInterval] game loop) together with the properties its
    specification states about it.

    JavaScript numbers are IEEE 754 binary64 values; they are modelled by
    Rocq's primitive floats, whose [+], [-], [*], [<?], [<=?] are the same
    operations.  The functions ECMAScript leaves implementation-approximated
    ([Math.cos], [Math.sin], [Math.sqrt], [**]) are an interface, [MathLib].
    The two calls that make the server non-deterministic, [Math.random()] and
    [nanoid()], are inputs of the handler that makes them. *)

From Stdlib Require Import Floats.PrimFloat.
From Stdlib Require Floats.SpecFloat Floats.FloatOps Floats.FloatAxioms.
From Stdlib Require Import Bool Arith Lia List String Ascii.
From Stdlib Require Import Decimal DecimalNat DecimalString.
Import ListNotations.

Set Warnings "-inexact-float,-abstract-large-number".
Local Open Scope string_scope.
Local Open Scope list_scope.

(** ** JavaScript helpers *)

(** [Math.min(a, b)]: NaN when either is NaN, and -0 below +0. *)
Definition Math_min (a b : float) : float :=
  if is_nan a || is_nan b then nan
  else if (a <? b)%float then a
  else if (b <? a)%float then b
  else if get_sign a then a else b.

(** [Math.max(a, b)]: NaN when either is NaN, and +0 above -0. *)
Definition Math_max (a b : float) : float :=
  if is_nan a || is_nan b then nan
  else if (a <? b)%float then b
  else if (b <? a)%float then a
  else if get_sign a then b else a.

(** The implementation-approximated part of [Math], and [v ** 2]. *)
Class MathLib := {
  Math_cos : float -> float;
  Math_sin : float -> float;
  Math_sqrt : float -> float;
  (** [sq v] is [v ** 2] *)
  sq : float -> float
}.

(** [`${n}`] for a non-negative integer: its decimal digits. *)
Definition number_to_string (n : nat) : string :=
  NilZero.string_of_uint (Nat.to_uint n).

(** [name || "Player"]: the empty string is the only falsy string. *)
Definition or_default (name dflt : string) : string :=
  match name with
  | EmptyString => dflt
  | String _ _ => name
  end.

(** ** Data *)

Module Player.
Record t := mk {
  id : string;
  name : string;
  x : float;
  y : float;
  health : float;
  teamId : string;
  (** a count of increments from 0 *)
  kills : nat;
  isDead : bool;
  angle : float
}.

Definition with_position (p : t) (x' y' angle' : float) : t :=
  mk (id p) (name p) x' y' (health p) (teamId p) (kills p) (isDead p) angle'.
Definition with_health (p : t) (h : float) : t :=
  mk (id p) (name p) (x p) (y p) h (teamId p) (kills p) (isDead p) (angle p).
Definition with_isDead (p : t) (d : bool) : t :=
  mk (id p) (name p) (x p) (y p) (health p) (teamId p) (kills p) d (angle p).
Definition with_kills (p : t) (k : nat) : t :=
  mk (id p) (name p) (x p) (y p) (health p) (teamId p) k (isDead p) (angle p).
End Player.

Module Bullet.
Record t := mk {
  id : string;
  ownerId : string;
  teamId : string;
  x : float;
  y : float;
  angle : float;
  speed : float;
  distance : float;
  maxDistance : float
}.
End Bullet.

Module Zone.
Record t := mk {
  x : float;
  y : float;
  radius : float;
  targetRadius : float
}.
End Zone.

(** [Record<string, Player>]: a JavaScript object.  [for ... in] and
    [Object.keys] enumerate string keys in insertion order (socket ids are
    20-character strings, never array indices), assigning to a present key
    keeps its place, and [delete] removes it. *)
Module Players.
Definition t := list (string * Player.t).

Fixpoint get (k : string) (ps : t) : option Player.t :=
  match ps with
  | [] => None
  | (k', p) :: rest => if String.eqb k k' then Some p else get k rest
  end.

Fixpoint set (k : string) (v : Player.t) (ps : t) : t :=
  match ps with
  | [] => [(k, v)]
  | (k', p) :: rest =>
      if String.eqb k k' then (k, v) :: rest else (k', p) :: set k v rest
  end.

Fixpoint delete (k : string) (ps : t) : t :=
  match ps with
  | [] => []
  | (k', p) :: rest =>
      if String.eqb k k' then delete k rest else (k', p) :: delete k rest
  end.

Definition keys (ps : t) : list string := map fst ps.
End Players.

Record GameState := mkGameState {
  players : Players.t;
  bullets : list Bullet.t;
  zone : Zone.t
}.

Definition MAP_SIZE : float := 2000.
Definition INITIAL_ZONE_RADIUS : float := 1200.

Definition gameState : GameState :=
  mkGameState [] []
    (Zone.mk (MAP_SIZE / 2)%float (MAP_SIZE / 2)%float
       INITIAL_ZONE_RADIUS INITIAL_ZONE_RADIUS).

(** What the server sends, and one mark that it does not send: [hit] records
    that a bullet took the [dist < 20] branch on a player. *)
Inductive Obs :=
| init (id : string) (g : GameState)
| playerJoined (p : Player.t)
| playerLeft (id : string)
| playerKilled (victim killer : string)
| gameStateUpdate (g : GameState)
| hit (bullet victim : string).

(** ** Socket handlers, for the socket whose id is [sid] *)

Definition team_of (sid mode : string) (ps : Players.t) : string :=
  if String.eqb mode "solo" then sid
  else if String.eqb mode "duo"
       then "team-d-" ++ number_to_string (List.length (Players.keys ps) / 2)
       else "team-s-" ++ number_to_string (List.length (Players.keys ps) / 4).

(** [rx] and [ry] are the two [Math.random()] draws. *)
Definition on_join (sid name mode : string) (rx ry : float) (g : GameState)
  : GameState * list Obs :=
  let teamId := team_of sid mode (players g) in
  let p := Player.mk sid (or_default name "Player")
             (rx * MAP_SIZE)%float (ry * MAP_SIZE)%float 100 teamId 0 false 0 in
  let g' := mkGameState (Players.set sid p (players g)) (bullets g) (zone g) in
  (g', [init sid g'; playerJoined p]).

Definition on_move (sid : string) (x y angle : float) (g : GameState)
  : GameState * list Obs :=
  match Players.get sid (players g) with
  | Some player =>
      if negb (Player.isDead player) then
        let player' :=
          Player.with_position player
            (Math_max 0 (Math_min MAP_SIZE x))
            (Math_max 0 (Math_min MAP_SIZE y))
            angle in
        (mkGameState (Players.set sid player' (players g)) (bullets g) (zone g), [])
      else (g, [])
  | None => (g, [])
  end.

(** [nid] is the [nanoid()] draw. *)
Definition on_shoot (sid nid : string) (g : GameState) : GameState * list Obs :=
  match Players.get sid (players g) with
  | Some player =>
      if negb (Player.isDead player) then
        let b := Bullet.mk nid sid (Player.teamId player)
                   (Player.x player) (Player.y player) (Player.angle player)
                   15 0 600 in
        (mkGameState (players g) (bullets g ++ [b]) (zone g), [])
      else (g, [])
  | None => (g, [])
  end.

Definition on_disconnect (sid : string) (g : GameState) : GameState * list Obs :=
  (mkGameState (Players.delete sid (players g)) (bullets g) (zone g),
   [playerLeft sid]).

(** ** The game loop *)

(** [bullets.splice(i, 1)] *)
Definition splice1 {A : Type} (i : nat) (l : list A) : list A :=
  firstn i l ++ skipn (S i) l.

(** [bullets[i]] seen after its object was mutated into [b] *)
Definition store_at {A : Type} (i : nat) (b : A) (l : list A) : list A :=
  firstn i l ++ b :: skipn (S i) l.

(** The zone update: [if (radius > 50) radius -= 0.1]. *)
Definition shrink (z : Zone.t) : Zone.t :=
  if (50 <? Zone.radius z)%float
  then Zone.mk (Zone.x z) (Zone.y z) (Zone.radius z - 0.1)%float (Zone.targetRadius z)
  else z.

Section Loop.
Context {M : MathLib}.

(** The three updates at the head of the bullet loop's body. *)
Definition advance (b : Bullet.t) : Bullet.t :=
  Bullet.mk (Bullet.id b) (Bullet.ownerId b) (Bullet.teamId b)
    (Bullet.x b + Math_cos (Bullet.angle b) * Bullet.speed b)%float
    (Bullet.y b + Math_sin (Bullet.angle b) * Bullet.speed b)%float
    (Bullet.angle b) (Bullet.speed b)
    (Bullet.distance b + Bullet.speed b)%float
    (Bullet.maxDistance b).

(** [p.id !== b.ownerId && p.teamId !== b.teamId && !p.isDead] *)
Definition candidate (b : Bullet.t) (p : Player.t) : bool :=
  negb (String.eqb (Player.id p) (Bullet.ownerId b))
  && negb (String.eqb (Player.teamId p) (Bullet.teamId b))
  && negb (Player.isDead p).

Definition dist (px py qx qy : float) : float :=
  Math_sqrt (sq (px - qx) + sq (py - qy))%float.

(** The collision loop up to its [break]: the first key, in enumeration
    order, whose player is a candidate closer than 20. *)
Fixpoint scan (b : Bullet.t) (ps : Players.t) (pids : list string)
  : option (string * Player.t) :=
  match pids with
  | [] => None
  | pid :: rest =>
      match Players.get pid ps with
      | Some p =>
          if candidate b p
             && (dist (Player.x p) (Player.y p) (Bullet.x b) (Bullet.y b) <? 20)%float
          then Some (pid, p)
          else scan b ps rest
      | None => scan b ps rest
      end
  end.

(** The body of [if (dist < 20)], the [splice] apart. *)
Definition apply_hit (b : Bullet.t) (pid : string) (p : Player.t) (ps : Players.t)
  : Players.t * list Obs :=
  let p1 := Player.with_health p (Player.health p - 20)%float in
  let ps1 := Players.set pid p1 ps in
  if (Player.health p1 <=? 0)%float then
    let p2 := Player.with_isDead p1 true in
    let ps2 := Players.set pid p2 ps1 in
    let ps3 :=
      match Players.get (Bullet.ownerId b) ps2 with
      | Some killer =>
          Players.set (Bullet.ownerId b)
            (Player.with_kills killer (S (Player.kills killer))) ps2
      | None => ps2
      end in
    (ps3, [hit (Bullet.id b) pid; playerKilled (Player.id p) (Bullet.ownerId b)])
  else (ps1, [hit (Bullet.id b) pid]).

(** One turn of the bullet loop, at index [i]. *)
Definition bullet_body (i : nat) (g : GameState) : GameState * list Obs :=
  match nth_error (bullets g) i with
  | None => (g, [])
  | Some b0 =>
      let b := advance b0 in
      if (Bullet.maxDistance b <? Bullet.distance b)%float then
        (mkGameState (players g) (splice1 i (bullets g)) (zone g), [])
      else
        match scan b (players g) (Players.keys (players g)) with
        | Some (pid, p) =>
            let '(ps', out) := apply_hit b pid p (players g) in
            (mkGameState ps' (splice1 i (bullets g)) (zone g), out)
        | None =>
            (mkGameState (players g) (store_at i b (bullets g)) (zone g), [])
        end
  end.

(** What one turn of the loop can do. *)
Inductive body_outcome (i : nat) (g : GameState) : GameState * list Obs -> Prop :=
| body_past_end :
    nth_error (bullets g) i = None ->
    body_outcome i g (g, [])
| body_retired b0 :
    nth_error (bullets g) i = Some b0 ->
    (Bullet.maxDistance (advance b0) <? Bullet.distance (advance b0))%float = true ->
    body_outcome i g
      (mkGameState (players g) (splice1 i (bullets g)) (zone g), [])
| body_hit b0 pid p :
    nth_error (bullets g) i = Some b0 ->
    (Bullet.maxDistance (advance b0) <? Bullet.distance (advance b0))%float = false ->
    scan (advance b0) (players g) (Players.keys (players g)) = Some (pid, p) ->
    body_outcome i g
      (mkGameState (fst (apply_hit (advance b0) pid p (players g)))
         (splice1 i (bullets g)) (zone g),
       snd (apply_hit (advance b0) pid p (players g)))
| body_flying b0 :
    nth_error (bullets g) i = Some b0 ->
    (Bullet.maxDistance (advance b0) <? Bullet.distance (advance b0))%float = false ->
    scan (advance b0) (players g) (Players.keys (players g)) = None ->
    body_outcome i g
      (mkGameState (players g) (store_at i (advance b0) (bullets g)) (zone g), []).

(** [for (let i = n - 1; i >= 0; i--)] *)
Fixpoint bullet_loop (n : nat) (g : GameState) : GameState * list Obs :=
  match n with
  | 0 => (g, [])
  | S i =>
      let '(g1, out1) := bullet_body i g in
      let '(g2, out2) := bullet_loop i g1 in
      (g2, out1 ++ out2)
  end.

(** The zone damage loop's body for the key [pid]. *)
Definition zone_body (z : Zone.t) (pid : string) (ps : Players.t)
  : Players.t * list Obs :=
  match Players.get pid ps with
  | Some p =>
      if negb (Player.isDead p) then
        let distToCenter := dist (Player.x p) (Player.y p) (Zone.x z) (Zone.y z) in
        if (Zone.radius z <? distToCenter)%float then
          let p1 := Player.with_health p (Player.health p - 0.5)%float in
          if (Player.health p1 <=? 0)%float
          then (Players.set pid (Player.with_isDead p1 true) ps,
                [playerKilled (Player.id p1) "ZONE"])
          else (Players.set pid p1 ps, [])
        else (ps, [])
      else (ps, [])
  | None => (ps, [])
  end.

Fixpoint zone_loop (z : Zone.t) (pids : list string) (ps : Players.t)
  : Players.t * list Obs :=
  match pids with
  | [] => (ps, [])
  | pid :: rest =>
      let '(ps1, out1) := zone_body z pid ps in
      let '(ps2, out2) := zone_loop z rest ps1 in
      (ps2, out1 ++ out2)
  end.

(** The [setInterval] callback. *)
Definition tick (g : GameState) : GameState * list Obs :=
  let '(g1, out1) := bullet_loop (List.length (bullets g)) g in
  let z := shrink (zone g1) in
  let '(ps, out2) := zone_loop z (Players.keys (players g1)) (players g1) in
  let g2 := mkGameState ps (bullets g1) z in
  (g2, out1 ++ out2 ++ [gameStateUpdate g2]).

(** ** Executions *)

Inductive Input :=
| join (sid name mode : string) (rx ry : float)
| move (sid : string) (x y angle : float)
| shoot (sid nid : string)
| disconnect (sid : string)
| tock.

Definition step (g : GameState) (i : Input) : GameState * list Obs :=
  match i with
  | join sid name mode rx ry => on_join sid name mode rx ry g
  | move sid x y angle => on_move sid x y angle g
  | shoot sid nid => on_shoot sid nid g
  | disconnect sid => on_disconnect sid g
  | tock => tick g
  end.

Fixpoint run (g : GameState) (ins : list Input) : GameState * list Obs :=
  match ins with
  | [] => (g, [])
  | i :: rest =>
      let '(g1, out1) := step g i in
      let '(g2, out2) := run g1 rest in
      (g2, out1 ++ out2)
  end.

Inductive reachable : GameState -> Prop :=
| reach_start : reachable gameState
| reach_step g i : reachable g -> reachable (fst (step g i)).
End Loop.


(** ** Reading a trace *)

(** The [(bullet, victim)] pairs of the [hit] marks of a trace, in order. *)
Fixpoint hits (out : list Obs) : list (string * string) :=
  match out with
  | [] => []
  | hit b v :: rest => (b, v) :: hits rest
  | _ :: rest => hits rest
  end.

Definition hit_ids (out : list Obs) : list string := map fst (hits out).

Definition bullet_ids (g : GameState) : list string := map Bullet.id (bullets g).

(** The [nanoid()] draws an input sequence consumes. *)
Fixpoint shoot_ids (ins : list Input) : list string :=
  match ins with
  | [] => []
  | shoot _ nid :: rest => nid :: shoot_ids rest
  | _ :: rest => shoot_ids rest
  end.

(** The number of game-loop turns in an input sequence. *)
Fixpoint ticks (ins : list Input) : nat :=
  match ins with
  | [] => 0
  | tock :: rest => S (ticks rest)
  | _ :: rest => ticks rest
  end.

(** ** A platform for the closed examples

    ECMAScript fixes [Math.cos(+0) = 1] and [Math.sin(+0) = +0]; the short
    series below are exact there, and the examples only shoot at angle 0.
    [Math.sqrt] is the IEEE square root and [v ** 2] is [v * v]. *)
#[local] Instance sample_math : MathLib := {
  Math_cos a := (1 - a * a / 2 + a * a * a * a / 24)%float;
  Math_sin a := (a - a * a * a / 6)%float;
  Math_sqrt := PrimFloat.sqrt;
  sq v := (v * v)%float
}.

(** Two solo players inside the zone, 15.625 apart on the x axis. *)
Definition two_players : list Input :=
  [join "A" "" "solo" 0.5 0.5; join "B" "bob" "solo" 0.5078125 0.5].

(** [A] fires four times, the loop runs once ([B] is left with 20 health),
    [A] fires again and disconnects. *)
Definition orphan_bullet : list Input :=
  two_players
  ++ [shoot "A" "b1"; shoot "A" "b2"; shoot "A" "b3"; shoot "A" "b4"; tock;
      shoot "A" "b5"; disconnect "A"].

(** [A] joins at the corner of the map, outside the zone, and the loop runs. *)
Definition outside_zone : list Input :=
  [join "A" "" "solo" 0 0; tock].

(** [A] fires five times, then disconnects, and the loop runs: [B] dies. *)
Definition last_stand : list Input :=
  two_players
  ++ [shoot "A" "b1"; shoot "A" "b2"; shoot "A" "b3"; shoot "A" "b4";
      shoot "A" "b5"; disconnect "A"; tock].

(** Two duo players of one team, [B] within reach of the bullet [A] fires. *)
Definition team_mates : list Input :=
  [join "A" "" "duo" 0.5 0.5; join "B" "bob" "duo" 0.5078125 0.5;
   shoot "A" "b1"].

(** [A] fires four times, the loop runs once ([B] is left with 20 health)
    and [A], still connected, fires again. *)
Definition fifth_shot : list Input :=
  two_players
  ++ [shoot "A" "b1"; shoot "A" "b2"; shoot "A" "b3"; shoot "A" "b4"; tock;
      shoot "A" "b5"].

(** ** Bullets in flight *)

(** The distance a bullet has covered after [k] turns of the game loop, at
    the speed every shot is given. *)
Definition flown (k : nat) : float := Nat.iter k (fun d => (d + 15)%float) 0%float.

(** A bullet as [shoot] makes them, at least [a] and at most 40 turns old. *)
Definition in_flight (a : nat) (b : Bullet.t) : Prop :=
  Bullet.speed b = 15%float
  /\ Bullet.maxDistance b = 600%float
  /\ exists k, a <= k <= 40 /\ Bullet.distance b = flown k.

(** The test that retires a bullet. *)
Definition retired (b : Bullet.t) : bool :=
  (Bullet.maxDistance b <? Bullet.distance b)%float.

(** ** Zone damage, player by player *)

(** What the zone damage loop does to one player. *)
Definition zone_effect {M : MathLib} (z : Zone.t) (p : Player.t) : Player.t :=
  if negb (Player.isDead p)
     && (Zone.radius z
         <? dist (Player.x p) (Player.y p) (Zone.x z) (Zone.y z))%float
  then
    let p1 := Player.with_health p (Player.health p - 0.5)%float in
    if (Player.health p1 <=? 0)%float then Player.with_isDead p1 true else p1
  else p.

(** The radius stays between the value it settles at and the initial one. *)
Definition radius_in_bounds (z : Zone.t) : bool :=
  (49.999999999996184 <=? Zone.radius z)%float
  && (Zone.radius z <=? INITIAL_ZONE_RADIUS)%float.

(** ** Hit detection and arrival order *)

(** The test a player has to pass to be hit by the bullet [b]. *)
Definition qualifies {M : MathLib} (b : Bullet.t) (p : Player.t) : bool :=
  candidate b p
  && (dist (Player.x p) (Player.y p) (Bullet.x b) (Bullet.y b) <? 20)%float.

(** One join message: session id, name and the two random draws. *)
Record Joiner := mkJoiner {
  j_sid : string;
  j_name : string;
  j_rx : float;
  j_ry : float
}.

(** The joins of [js], one after the other, all in the same mode. *)
Definition join_each (mode : string) (js : list Joiner) (g : GameState) : GameState :=
  fold_left
    (fun g j => fst (on_join (j_sid j) (j_name j) mode (j_rx j) (j_ry j) g))
    js g.

(** The team name for the [n]-th arrival, counting from 0, in a mode other
    than solo. *)
Definition team_name (mode : string) (n : nat) : string :=
  if String.eqb mode "duo"
  then "team-d-" ++ number_to_string (n / 2)
  else "team-s-" ++ number_to_string (n / 4).

(** ** The client's controls (the game view of [App.tsx])

    [keys] is the record the key handlers write; a key that was never
    written reads as undefined, which the interval callback takes as not
    pressed.  The handlers receive [e.key.toLowerCase()], here [k]. *)
Module Keys.
Definition t := list (string * bool).

Fixpoint get (k : string) (keys : t) : option bool :=
  match keys with
  | [] => None
  | (k', v) :: rest => if String.eqb k k' then Some v else get k rest
  end.

Fixpoint set (k : string) (v : bool) (keys : t) : t :=
  match keys with
  | [] => [(k, v)]
  | (k', v') :: rest =>
      if String.eqb k k' then (k, v) :: rest else (k', v') :: set k v rest
  end.

(** [keys[k]] read as a condition *)
Definition down (keys : t) (k : string) : bool :=
  match get k keys with
  | Some v => v
  | None => false
  end.

Definition handleKeyDown (k : string) (keys : t) : t := set k true keys.
Definition handleKeyUp (k : string) (keys : t) : t := set k false keys.
End Keys.

(** The [moveInterval] callback: the move message it emits, if any, as
    [(x, y, angle)]; [me] is [gameState.players[myId]]. *)
Definition moveInterval (keys : Keys.t) (me : option Player.t)
  : option (float * float * float) :=
  match me with
  | None => None
  | Some me =>
      if Player.isDead me then None
      else
        let dx := 0%float in
        let dy := 0%float in
        let speed := 5%float in
        let dy := if Keys.down keys "w" || Keys.down keys "arrowup"
                  then (dy - speed)%float else dy in
        let dy := if Keys.down keys "s" || Keys.down keys "arrowdown"
                  then (dy + speed)%float else dy in
        let dx := if Keys.down keys "a" || Keys.down keys "arrowleft"
                  then (dx - speed)%float else dx in
        let dx := if Keys.down keys "d" || Keys.down keys "arrowright"
                  then (dx + speed)%float else dx in
        if negb (dx =? 0)%float || negb (dy =? 0)%float
        then Some ((Player.x me + dx)%float, (Player.y me + dy)%float,
                   Player.angle me)
        else None
  end.

(** [Object.values(gameState.players).filter(p => !p.isDead).length] *)
Definition aliveCount (ps : Players.t) : nat :=
  List.length (filter (fun p => negb (Player.isDead p)) (map snd ps)).

(** The directions the pressed keys ask for. *)
Definition wants_up (keys : Keys.t) : bool :=
  Keys.down keys "w" || Keys.down keys "arrowup".
Definition wants_down (keys : Keys.t) : bool :=
  Keys.down keys "s" || Keys.down keys "arrowdown".
Definition wants_left (keys : Keys.t) : bool :=
  Keys.down keys "a" || Keys.down keys "arrowleft".
Definition wants_right (keys : Keys.t) : bool :=
  Keys.down keys "d" || Keys.down keys "arrowright".

(** ** Health *)

(** A player after it took [d] damage: what a hit ([d = 20]) and the zone
    ([d = 0.5]) write. *)
Definition damaged (d : float) (p : Player.t) : Player.t :=
  let p1 := Player.with_health p (Player.health p - d)%float in
  if (Player.health p1 <=? 0)%float then Player.with_isDead p1 true else p1.

(** The values health takes: the half points from -19.5 ([n = 0]) through
    0 ([n = 39]) to 100 ([n = 239]). *)
Definition half_points (n : nat) : float :=
  Nat.iter n (fun h => (h + 0.5)%float) (-19.5)%float.

Definition sound_health (p : Player.t) : Prop :=
  exists n,
    n <= 239
    /\ Player.health p = half_points n
    /\ (Player.isDead p = false -> 40 <= n).

(** What the arithmetic has to do at the half point [n]. *)
Definition half_point_ok (n : nat) : bool :=
  Bool.eqb (half_points n <=? 0)%float (Nat.leb n 39)
  && (-19.5 <=? half_points n)%float
  && (half_points n <=? 100)%float
  && (Nat.ltb n 40
      || (PrimFloat.Leibniz.eqb (half_points n - 20)%float (half_points (n - 40))
          && PrimFloat.Leibniz.eqb (half_points n - 0.5)%float
               (half_points (n - 1)))).

(** The half points up to [n0] are at most the half point [n0]. *)
Definition below_half_point (n0 : nat) : bool :=
  forallb (fun n => (half_points n <=? half_points n0)%float) (seq 0 (S n0)).

(** ** The invariant of the player store *)

Definition dead_iff_no_health (ps : Players.t) : Prop :=
  forall sid p,
    Players.get sid ps = Some p ->
    Player.isDead p = (Player.health p <=? 0)%float.

(** [orbit_holds P n z]: [P] holds of [z] and of its next [n] shrinks. *)
Fixpoint orbit_holds (P : Zone.t -> bool) (n : nat) (z : Zone.t) : bool :=
  P z && match n with
         | 0 => true
         | S k => orbit_holds P k (shrink z)
         end.

(** The radius does not grow in the next shrink. *)
Definition shrinks_or_stays (z : Zone.t) : bool :=
  (Zone.radius (shrink z) <=? Zone.radius z)%float.

(** How many times the id [x] occurs in [l]. *)
Definition occ (l : list string) (x : string) : nat :=
  count_occ string_dec l x.

(** Every player is stored under the session id it carries. *)
Definition stored_under_own_id (ps : Players.t) : Prop :=
  forall k p, Players.get k ps = Some p -> Player.id p = k.

(** ** The join handler as the specification words it

    "rejects if sessionId already has a player (idempotent no-op)": a join
    from a session that has a player leaves that player as it was. *)
Definition rejoin_is_rejected {M : MathLib} : Prop :=
  forall g sid name mode rx ry p,
    reachable g ->
    Players.get sid (players g) = Some p ->
    exists p',
      Players.get sid (players (fst (on_join sid name mode rx ry g))) = Some p'
      /\ Player.x p' = Player.x p /\ Player.y p' = Player.y p
      /\ Player.health p' = Player.health p
      /\ Player.teamId p' = Player.teamId p
      /\ Player.kills p' = Player.kills p
      /\ Player.isDead p' = Player.isDead p.

(** ** The player store *)

Lemma get_set_same k v ps : Players.get k (Players.set k v ps) = Some v.
Proof.
  induction ps as [|[k' p] rest IH]; simpl.
  - now rewrite String.eqb_refl.
  - destruct (String.eqb k k') eqn:E; simpl.
    + now rewrite String.eqb_refl.
    + now rewrite E.
Qed.

Lemma get_set_other k k' v ps :
  k <> k' -> Players.get k' (Players.set k v ps) = Players.get k' ps.
Proof.
  intros Hne. induction ps as [|[k0 p] rest IH]; simpl.
  - destruct (String.eqb k' k) eqn:E; auto.
    apply String.eqb_eq in E. congruence.
  - destruct (String.eqb k k0) eqn:E; simpl.
    + apply String.eqb_eq in E. subst k0.
      destruct (String.eqb k' k) eqn:E'; auto.
      apply String.eqb_eq in E'. congruence.
    + now rewrite IH.
Qed.

Lemma get_set k k' v ps :
  Players.get k' (Players.set k v ps)
  = if String.eqb k' k then Some v else Players.get k' ps.
Proof.
  destruct (String.eqb k' k) eqn:E.
  - apply String.eqb_eq in E. subst. apply get_set_same.
  - apply String.eqb_neq in E. apply get_set_other. congruence.
Qed.

Lemma get_delete k k' ps :
  Players.get k' (Players.delete k ps)
  = if String.eqb k' k then None else Players.get k' ps.
Proof.
  induction ps as [|[k0 p] rest IH]; simpl.
  - now destruct (String.eqb k' k).
  - destruct (String.eqb k k0) eqn:E; simpl.
    + apply String.eqb_eq in E. subst k0. rewrite IH.
      now destruct (String.eqb k' k).
    + rewrite IH. destruct (String.eqb k' k) eqn:E'; auto.
      apply String.eqb_eq in E'. subst k'.
      now rewrite E.
Qed.

Lemma get_in_keys k ps p : Players.get k ps = Some p -> In k (Players.keys ps).
Proof.
  induction ps as [|[k0 q] rest IH]; simpl; [discriminate|].
  destruct (String.eqb k k0) eqn:E.
  - apply String.eqb_eq in E. auto.
  - auto.
Qed.

Lemma keys_set_fresh k v ps :
  Players.get k ps = None -> Players.keys (Players.set k v ps) = Players.keys ps ++ [k].
Proof.
  induction ps as [|[k0 q] rest IH]; simpl; auto.
  destruct (String.eqb k k0); [discriminate|].
  intros H. simpl. now rewrite <- IH.
Qed.

Lemma keys_set_present k v ps p :
  Players.get k ps = Some p -> Players.keys (Players.set k v ps) = Players.keys ps.
Proof.
  induction ps as [|[k0 q] rest IH]; simpl; [discriminate|].
  destruct (String.eqb k k0) eqn:E; simpl.
  - apply String.eqb_eq in E. now subst.
  - intros H. now rewrite IH.
Qed.

(** ** Executions and reachable states *)

Lemma run_reachable {M : MathLib} ins : forall g,
  reachable g -> reachable (fst (run g ins)).
Proof.
  induction ins as [|i rest IH]; intros g Hg; simpl; auto.
  pose proof (reach_step g i Hg) as H1.
  destruct (step g i) as [g1 out1]. simpl in H1.
  specialize (IH g1 H1).
  now destruct (run g1 rest).
Qed.

(** ** The socket handlers *)

(** C10. A join with the empty name creates a player named "Player"; a join
    with any other name creates a player with that name. *)
Theorem join_display_name :
  (forall sid mode rx ry g,
      exists p,
        Players.get sid (players (fst (on_join sid "" mode rx ry g))) = Some p
        /\ Player.name p = "Player")
  /\ (forall sid name mode rx ry g,
         name <> "" ->
         exists p,
           Players.get sid (players (fst (on_join sid name mode rx ry g))) = Some p
           /\ Player.name p = name).
Proof.
  split.
  - intros. eexists. split; [apply get_set_same | reflexivity].
  - intros sid name mode rx ry g Hne.
    eexists. split; [apply get_set_same|].
    destruct name; [congruence | reflexivity].
Qed.

Lemma join_display_name_witness :
  exists p,
    Players.get "B" (players (fst (on_join "B" "bob" "solo" 0.5 0.5 gameState)))
    = Some p
    /\ Player.name p = "bob".
Proof.
  apply (proj2 join_display_name "B" "bob" "solo" 0.5%float 0.5%float gameState).
  discriminate.
Defined.

(** The store after a join, key by key. *)
Lemma get_after_join sid name mode rx ry g k :
  Players.get k (players (fst (on_join sid name mode rx ry g)))
  = if String.eqb k sid
    then Some (Player.mk sid (or_default name "Player")
                 (rx * MAP_SIZE)%float (ry * MAP_SIZE)%float 100
                 (team_of sid mode (players g)) 0 false 0)
    else Players.get k (players g).
Proof.
  unfold on_join. cbn [fst players]. apply get_set.
Qed.

(** C1, as the handler is written. A join from a session that already has a
    player is not rejected: it puts a new player in the place of the old
    one, at the position drawn, with full health, no kills, alive, in the
    team computed from the player count of the moment.  The keys of the
    store and every other player stay as they were. *)
Theorem rejoin_replaces_player sid name mode rx ry g p :
  Players.get sid (players g) = Some p ->
  let g' := fst (on_join sid name mode rx ry g) in
  Players.get sid (players g')
  = Some (Player.mk sid (or_default name "Player")
            (rx * MAP_SIZE)%float (ry * MAP_SIZE)%float 100
            (team_of sid mode (players g)) 0 false 0)
  /\ Players.keys (players g') = Players.keys (players g)
  /\ (forall k, k <> sid -> Players.get k (players g') = Players.get k (players g))
  /\ bullets g' = bullets g
  /\ zone g' = zone g.
Proof.
  intros Hp g'. subst g'. repeat split.
  - now rewrite get_after_join, String.eqb_refl.
  - unfold on_join. cbn [fst players]. now apply keys_set_present with p.
  - intros k Hne. rewrite get_after_join.
    apply String.eqb_neq in Hne. now rewrite Hne.
Qed.

Lemma rejoin_replaces_player_witness :
  let g := fst (run gameState outside_zone) in
  let g' := fst (on_join "A" "" "solo" 0.5 0.5 g) in
  Players.get "A" (players g) = Some (Player.mk "A" "Player" 0 0 99.5 "A" 0 false 0)
  /\ Players.get "A" (players g')
     = Some (Player.mk "A" "Player" (0.5 * MAP_SIZE)%float (0.5 * MAP_SIZE)%float
               100 "A" 0 false 0).
Proof.
  intros g g'.
  assert (Hp : Players.get "A" (players g)
               = Some (Player.mk "A" "Player" 0 0 99.5 "A" 0 false 0))
    by (vm_compute; reflexivity).
  split; [exact Hp|].
  apply (rejoin_replaces_player "A" "" "solo" 0.5%float 0.5%float g _ Hp).
Defined.

(** C1, as the specification states it, fails: [A] joins outside the zone,
    loses half a point of health to it, joins again and is back at full
    health at another place. *)
Lemma rejoin_restores_health : ~ @rejoin_is_rejected sample_math.
Proof.
  intros H.
  destruct (H (fst (run gameState outside_zone)) "A" "" "solo"
              0.5%float 0.5%float
              (Player.mk "A" "Player" 0 0 99.5 "A" 0 false 0))
    as (p' & Hget & _ & _ & Hh & _).
  - apply run_reachable. constructor.
  - vm_compute. reflexivity.
  - rewrite get_after_join in Hget. cbn [String.eqb Ascii.eqb Bool.eqb] in Hget.
    injection Hget as <-. cbn [Player.health] in Hh.
    apply (f_equal (fun h => (h <? 100)%float)) in Hh.
    vm_compute in Hh. discriminate.
Qed.

(** C5. For a player whose dead flag is set, a move and a shoot of its
    session change nothing: the state, and with it the player's position,
    health and angle, is the one before. *)
Theorem dead_player_is_frozen g sid p :
  Players.get sid (players g) = Some p ->
  Player.isDead p = true ->
  (forall x y angle,
      fst (on_move sid x y angle g) = g
      /\ Players.get sid (players (fst (on_move sid x y angle g))) = Some p)
  /\ (forall nid,
         fst (on_shoot sid nid g) = g
         /\ Players.get sid (players (fst (on_shoot sid nid g))) = Some p).
Proof.
  intros Hget Hdead.
  assert (Hm : forall x y angle, fst (on_move sid x y angle g) = g).
  { intros. unfold on_move. rewrite Hget, Hdead. reflexivity. }
  assert (Hs : forall nid, fst (on_shoot sid nid g) = g).
  { intros. unfold on_shoot. rewrite Hget, Hdead. reflexivity. }
  split; intros; [rewrite Hm | rewrite Hs]; auto.
Qed.

Lemma dead_player_is_frozen_witness :
  let g := fst (run gameState last_stand) in
  fst (on_move "B" 0 0 1 g) = g /\ fst (on_shoot "B" "b6" g) = g.
Proof.
  intros g.
  destruct (dead_player_is_frozen g "B"
              (Player.mk "B" "bob" 1015.625 1000 0 "B" 0 true 0))
    as [Hm Hs].
  - vm_compute. reflexivity.
  - reflexivity.
  - split; [apply (Hm 0 0 1)%float | apply (Hs "b6")].
Defined.

(** *** Team assignment *)

Lemma number_to_string_inj n m :
  number_to_string n = number_to_string m -> n = m.
Proof.
  unfold number_to_string. intros H.
  assert (Hnn : forall k, Nat.to_uint k <> Nil).
  { intros k. rewrite <- (Unsigned.of_to k), Unsigned.to_of.
    apply DecimalFacts.unorm_nonnil. }
  apply Unsigned.to_uint_inj.
  pose proof (NilZero.usu _ (Hnn n)) as Hn.
  pose proof (NilZero.usu _ (Hnn m)) as Hm.
  rewrite H in Hn. congruence.
Qed.

Lemma half_of_pair m r : r < 2 -> (2 * m + r) / 2 = m.
Proof.
  intros Hr. symmetry. apply Nat.div_unique with r; lia.
Qed.

Lemma team_of_duo sid ps :
  team_of sid "duo" ps
  = ("team-d-" ++ number_to_string (List.length (Players.keys ps) / 2))%string.
Proof. reflexivity. Qed.

Lemma join_fresh_count sid name mode rx ry g :
  Players.get sid (players g) = None ->
  List.length (Players.keys (players (fst (on_join sid name mode rx ry g))))
  = S (List.length (Players.keys (players g))).
Proof.
  intros H. unfold on_join. cbn [fst players].
  rewrite keys_set_fresh by assumption.
  rewrite length_app. simpl. lia.
Qed.

Lemma join_other_absent sid sid' name mode rx ry g :
  sid' <> sid ->
  Players.get sid' (players g) = None ->
  Players.get sid' (players (fst (on_join sid name mode rx ry g))) = None.
Proof.
  intros Hne H. rewrite get_after_join.
  apply String.eqb_neq in Hne. now rewrite Hne.
Qed.

Lemma join_team sid name mode rx ry g :
  exists p,
    Players.get sid (players (fst (on_join sid name mode rx ry g))) = Some p
    /\ Player.teamId p = team_of sid mode (players g).
Proof.
  eexists. rewrite get_after_join, String.eqb_refl. split; reflexivity.
Qed.

Lemma join_keeps_other sid sid' name mode rx ry g p :
  sid' <> sid ->
  Players.get sid' (players g) = Some p ->
  Players.get sid' (players (fst (on_join sid name mode rx ry g))) = Some p.
Proof.
  intros Hne H. rewrite get_after_join.
  apply String.eqb_neq in Hne. now rewrite Hne.
Qed.

(** C8. In a store with an even number of players (the empty store of a
    fresh server is one), four new sessions that join duo mode one after the
    other are paired by join order: the first two share a team, the last two
    share a team, and the two teams differ. *)
Theorem duo_teams_by_join_order g s1 s2 s3 s4 n1 n2 n3 n4 x1 y1 x2 y2 x3 y3 x4 y4 :
  Nat.even (List.length (Players.keys (players g))) = true ->
  NoDup [s1; s2; s3; s4] ->
  (forall s, In s [s1; s2; s3; s4] -> Players.get s (players g) = None) ->
  let g1 := fst (on_join s1 n1 "duo" x1 y1 g) in
  let g2 := fst (on_join s2 n2 "duo" x2 y2 g1) in
  let g3 := fst (on_join s3 n3 "duo" x3 y3 g2) in
  let g4 := fst (on_join s4 n4 "duo" x4 y4 g3) in
  exists p1 p2 p3 p4,
    Players.get s1 (players g4) = Some p1
    /\ Players.get s2 (players g4) = Some p2
    /\ Players.get s3 (players g4) = Some p3
    /\ Players.get s4 (players g4) = Some p4
    /\ Player.teamId p1 = Player.teamId p2
    /\ Player.teamId p3 = Player.teamId p4
    /\ Player.teamId p1 <> Player.teamId p3.
Proof.
  intros Heven Hnd Hfresh g1 g2 g3 g4.
  apply Nat.even_spec in Heven. destruct Heven as [m Hm].
  (* the four ids are pairwise distinct *)
  inversion Hnd as [|? ? H1 Hnd1]; subst.
  inversion Hnd1 as [|? ? H2 Hnd2]; subst.
  inversion Hnd2 as [|? ? H3 _]; subst.
  assert (D12 : s2 <> s1) by (intros ->; apply H1; simpl; auto).
  assert (D13 : s3 <> s1) by (intros ->; apply H1; simpl; auto).
  assert (D14 : s4 <> s1) by (intros ->; apply H1; simpl; auto).
  assert (D23 : s3 <> s2) by (intros ->; apply H2; simpl; auto).
  assert (D24 : s4 <> s2) by (intros ->; apply H2; simpl; auto).
  assert (D34 : s4 <> s3) by (intros ->; apply H3; simpl; auto).
  (* none of them has a player when its turn to join comes *)
  assert (F1 : Players.get s1 (players g) = None) by (apply Hfresh; simpl; auto).
  assert (F2 : Players.get s2 (players g1) = None).
  { apply join_other_absent; auto. apply Hfresh; simpl; auto. }
  assert (F3 : Players.get s3 (players g2) = None).
  { do 2 (apply join_other_absent; auto). apply Hfresh; simpl; auto. }
  assert (F4 : Players.get s4 (players g3) = None).
  { do 3 (apply join_other_absent; auto). apply Hfresh; simpl; auto 6. }
  (* so the count grows by one at each join *)
  pose proof (join_fresh_count s1 n1 "duo" x1 y1 g F1) as C1. fold g1 in C1.
  pose proof (join_fresh_count s2 n2 "duo" x2 y2 g1 F2) as C2. fold g2 in C2.
  pose proof (join_fresh_count s3 n3 "duo" x3 y3 g2 F3) as C3. fold g3 in C3.
  (* the team each one is given *)
  destruct (join_team s1 n1 "duo" x1 y1 g) as (p1 & G1 & T1). fold g1 in G1.
  destruct (join_team s2 n2 "duo" x2 y2 g1) as (p2 & G2 & T2). fold g2 in G2.
  destruct (join_team s3 n3 "duo" x3 y3 g2) as (p3 & G3 & T3). fold g3 in G3.
  destruct (join_team s4 n4 "duo" x4 y4 g3) as (p4 & G4 & T4). fold g4 in G4.
  assert (E0 : (2 * m) / 2 = m)
    by (transitivity ((2 * m + 0) / 2); [f_equal; lia | apply half_of_pair; lia]).
  assert (E1 : S (2 * m) / 2 = m)
    by (transitivity ((2 * m + 1) / 2); [f_equal; lia | apply half_of_pair; lia]).
  assert (E2 : S (S (2 * m)) / 2 = S m)
    by (transitivity ((2 * (S m) + 0) / 2); [f_equal; lia | apply half_of_pair; lia]).
  assert (E3 : S (S (S (2 * m))) / 2 = S m)
    by (transitivity ((2 * (S m) + 1) / 2); [f_equal; lia | apply half_of_pair; lia]).
  exists p1, p2, p3, p4.
  repeat split.
  - unfold g4, g3, g2. now repeat (apply join_keeps_other; auto).
  - unfold g4, g3. now repeat (apply join_keeps_other; auto).
  - unfold g4. now apply join_keeps_other.
  - exact G4.
  - rewrite T1, T2, !team_of_duo, C1, Hm, E0, E1. reflexivity.
  - rewrite T3, T4, !team_of_duo, C3, C2, C1, Hm, E2, E3. reflexivity.
  - rewrite T1, T3, !team_of_duo, C2, C1, Hm, E0, E2.
    intros H. simpl in H. injection H as H.
    apply number_to_string_inj in H. lia.
Qed.

Lemma duo_teams_by_join_order_witness :
  let g4 :=
    fst (on_join "s4" "d" "duo" 0.5 0.5
          (fst (on_join "s3" "c" "duo" 0.5 0.5
                 (fst (on_join "s2" "b" "duo" 0.5 0.5
                        (fst (on_join "s1" "a" "duo" 0.5 0.5 gameState))))))) in
  exists p1 p2 p3 p4,
    Players.get "s1" (players g4) = Some p1
    /\ Players.get "s2" (players g4) = Some p2
    /\ Players.get "s3" (players g4) = Some p3
    /\ Players.get "s4" (players g4) = Some p4
    /\ Player.teamId p1 = Player.teamId p2
    /\ Player.teamId p3 = Player.teamId p4
    /\ Player.teamId p1 <> Player.teamId p3.
Proof.
  apply (duo_teams_by_join_order gameState "s1" "s2" "s3" "s4").
  - reflexivity.
  - repeat constructor; simpl; intuition discriminate.
  - intros s _. reflexivity.
Defined.

(** ** The bullet loop *)

Section BulletLoop.
Context {M : MathLib}.

Lemma scan_found b ps pids pid p :
  scan b ps pids = Some (pid, p) ->
  In pid pids
  /\ Players.get pid ps = Some p
  /\ candidate b p = true
  /\ (dist (Player.x p) (Player.y p) (Bullet.x b) (Bullet.y b) <? 20)%float = true.
Proof.
  induction pids as [|k rest IH]; simpl; [discriminate|].
  destruct (Players.get k ps) as [q|] eqn:G.
  - destruct (candidate b q
              && (dist (Player.x q) (Player.y q) (Bullet.x b) (Bullet.y b) <? 20)%float)
      eqn:C.
    + intros [= <- <-]. apply andb_true_iff in C. tauto.
    + intros H. apply IH in H. tauto.
  - intros H. apply IH in H. tauto.
Qed.

Lemma candidate_other_team b p :
  candidate b p = true -> Player.teamId p <> Bullet.teamId b.
Proof.
  unfold candidate. rewrite !andb_true_iff, !negb_true_iff.
  intros [[_ H] _]. now apply String.eqb_neq.
Qed.

Lemma candidate_alive b p : candidate b p = true -> Player.isDead p = false.
Proof.
  unfold candidate. rewrite !andb_true_iff, !negb_true_iff. tauto.
Qed.

Lemma bullet_body_outcome i g : body_outcome i g (bullet_body i g).
Proof.
  unfold bullet_body.
  destruct (nth_error (bullets g) i) as [b0|] eqn:N.
  - destruct (Bullet.maxDistance (advance b0) <? Bullet.distance (advance b0))%float
      eqn:D.
    + now apply body_retired with b0.
    + destruct (scan (advance b0) (players g) (Players.keys (players g)))
        as [[pid p]|] eqn:S.
      * pose proof (body_hit i g b0 pid p N D S) as H.
        now destruct (apply_hit (advance b0) pid p (players g)).
      * now apply body_flying.
  - now apply body_past_end.
Qed.

(** The victim of a hit loses 20 health and is dead exactly when that brings
    it to zero or below. *)
Lemma apply_hit_victim b pid p ps :
  exists p',
    Players.get pid (fst (apply_hit b pid p ps)) = Some p'
    /\ Player.health p' = (Player.health p - 20)%float
    /\ Player.isDead p'
       = (Player.isDead p || (Player.health p - 20 <=? 0)%float).
Proof.
  unfold apply_hit. cbn [Player.health Player.with_health].
  destruct (Player.health p - 20 <=? 0)%float eqn:L; cbn [fst].
  - destruct (Players.get (Bullet.ownerId b) _) as [killer|] eqn:K.
    + rewrite get_set. rewrite get_set in K.
      destruct (String.eqb pid (Bullet.ownerId b)) eqn:E.
      * apply String.eqb_eq in E. rewrite <- E, String.eqb_refl in K.
        injection K as <-. eexists. split; [reflexivity|].
        split; [reflexivity | now rewrite orb_true_r].
      * rewrite get_set_same. eexists. split; [reflexivity|].
        split; [reflexivity | now rewrite orb_true_r].
    + rewrite get_set_same. eexists. split; [reflexivity|].
      split; [reflexivity | now rewrite orb_true_r].
  - rewrite get_set_same. eexists. split; [reflexivity|].
    split; [reflexivity | now rewrite orb_false_r].
Qed.

(** Every other player keeps its health and its dead flag. *)
Lemma apply_hit_other b pid p ps k q :
  k <> pid ->
  Players.get k ps = Some q ->
  exists q',
    Players.get k (fst (apply_hit b pid p ps)) = Some q'
    /\ Player.health q' = Player.health q
    /\ Player.isDead q' = Player.isDead q.
Proof.
  intros Hne Hq. unfold apply_hit.
  assert (Hpk : pid <> k) by congruence.
  destruct (Player.health _ <=? 0)%float; cbn [fst].
  - destruct (Players.get (Bullet.ownerId b) _) as [killer|] eqn:K.
    + rewrite get_set.
      destruct (String.eqb k (Bullet.ownerId b)) eqn:E.
      * apply String.eqb_eq in E. subst k.
        rewrite !get_set_other in K by assumption.
        rewrite Hq in K. injection K as <-.
        eexists. repeat split.
      * rewrite !get_set_other by assumption. eauto.
    + rewrite !get_set_other by assumption. eauto.
  - rewrite get_set_other by assumption. eauto.
Qed.

(** Kills change only through the owner's entry. *)
Lemma apply_hit_kills b pid p ps k q :
  Players.get pid ps = Some p ->
  Players.get (Bullet.ownerId b) ps = None ->
  Players.get k ps = Some q ->
  exists q',
    Players.get k (fst (apply_hit b pid p ps)) = Some q'
    /\ Player.kills q' = Player.kills q.
Proof.
  intros Hp Hown Hq. unfold apply_hit.
  assert (Hne : pid <> Bullet.ownerId b) by congruence.
  assert (K : forall v w,
             Players.get (Bullet.ownerId b)
               (Players.set pid v (Players.set pid w ps)) = None).
  { intros. now rewrite !get_set_other. }
  assert (R : forall v, Player.kills v = Player.kills p ->
              exists q', Players.get k (Players.set pid v ps) = Some q'
                         /\ Player.kills q' = Player.kills q).
  { intros v Hv. rewrite get_set.
    destruct (String.eqb k pid) eqn:E.
    - apply String.eqb_eq in E. subst k. rewrite Hp in Hq.
      injection Hq as <-. eauto.
    - eauto. }
  destruct (Player.health _ <=? 0)%float; cbn [fst].
  - rewrite K.
    destruct (R (Player.with_health p (Player.health p - 20)%float) eq_refl)
      as (q1 & G1 & K1).
    rewrite get_set.
    destruct (String.eqb k pid) eqn:E.
    + apply String.eqb_eq in E. subst k. rewrite Hp in Hq.
      injection Hq as <-. eexists. split; reflexivity.
    + rewrite get_set, E. eauto.
  - now apply R.
Qed.

(** C6. In every turn of the bullet loop, a player whose team is the
    bullet's team keeps its health, whatever the mode the teams came from. *)
Theorem no_friendly_fire i g b0 k q :
  nth_error (bullets g) i = Some b0 ->
  Players.get k (players g) = Some q ->
  Player.teamId q = Bullet.teamId b0 ->
  exists q',
    Players.get k (players (fst (bullet_body i g))) = Some q'
    /\ Player.health q' = Player.health q.
Proof.
  intros Hb Hq Hteam.
  destruct (bullet_body_outcome i g) as [N | b N D | b pid p N D S | b N D S];
    cbn [fst players]; eauto.
  rewrite Hb in N. injection N as <-.
  apply scan_found in S. destruct S as (_ & Hp & Hc & _).
  apply candidate_other_team in Hc. cbn [advance Bullet.teamId] in Hc.
  assert (Hne : k <> pid).
  { intros ->. rewrite Hp in Hq. injection Hq as ->. congruence. }
  destruct (apply_hit_other (advance b0) pid p (players g) k q Hne Hq)
    as (q' & G & H & _).
  eauto.
Qed.
End BulletLoop.

Lemma no_friendly_fire_witness :
  let g := fst (run gameState team_mates) in
  exists q',
    Players.get "B" (players (fst (bullet_body 0 g))) = Some q'
    /\ Player.health q' = 100%float.
Proof.
  intros g.
  apply (no_friendly_fire 0 g
           (Bullet.mk "b1" "A" "team-d-0" 1000 1000 0 15 0 600) "B"
           (Player.mk "B" "bob" 1015.625 1000 100 "team-d-0" 0 false 0)).
  - vm_compute. reflexivity.
  - vm_compute. reflexivity.
  - reflexivity.
Defined.

(** C9. When the owner of a bullet has no player in the store and the bullet
    finds a victim that 20 damage brings to zero or below, the turn of the
    loop takes the 20 health, marks the victim dead, removes the bullet, and
    leaves the kill count of every player as it was. *)
Theorem orphan_bullet_credits_nobody {M : MathLib} i g b0 pid p :
  nth_error (bullets g) i = Some b0 ->
  Players.get (Bullet.ownerId b0) (players g) = None ->
  (Bullet.maxDistance (advance b0) <? Bullet.distance (advance b0))%float = false ->
  scan (advance b0) (players g) (Players.keys (players g)) = Some (pid, p) ->
  (Player.health p - 20 <=? 0)%float = true ->
  let g' := fst (bullet_body i g) in
  (exists p',
      Players.get pid (players g') = Some p'
      /\ Player.health p' = (Player.health p - 20)%float
      /\ Player.isDead p' = true)
  /\ (forall k q,
         Players.get k (players g) = Some q ->
         exists q',
           Players.get k (players g') = Some q'
           /\ Player.kills q' = Player.kills q)
  /\ bullets g' = splice1 i (bullets g).
Proof.
  intros Hb Hown Hd Hs Hl g'. subst g'.
  destruct (bullet_body_outcome i g) as [N | b N D | b pid' p' N D S | b N D S];
    rewrite Hb in N; try discriminate N; injection N as <-;
    try congruence.
  rewrite Hs in S. injection S as <- <-.
  cbn [fst players bullets].
  apply scan_found in Hs. destruct Hs as (_ & Hp & _ & _).
  split; [|split].
  - destruct (apply_hit_victim (advance b0) pid p (players g))
      as (p' & G & H & Dd).
    exists p'. rewrite Hl, orb_true_r in Dd. auto.
  - intros k q Hq. now apply apply_hit_kills.
  - reflexivity.
Qed.

Lemma orphan_bullet_credits_nobody_witness :
  let g := fst (run gameState orphan_bullet) in
  let g' := fst (bullet_body 0 g) in
  (exists p',
      Players.get "B" (players g') = Some p'
      /\ Player.health p' = (20 - 20)%float
      /\ Player.isDead p' = true)
  /\ (forall k q,
         Players.get k (players g) = Some q ->
         exists q',
           Players.get k (players g') = Some q'
           /\ Player.kills q' = Player.kills q)
  /\ bullets g' = splice1 0 (bullets g).
Proof.
  intros g.
  apply (orphan_bullet_credits_nobody 0 g
           (Bullet.mk "b5" "A" "A" 1000 1000 0 15 0 600) "B"
           (Player.mk "B" "bob" 1015.625 1000 20 "B" 0 false 0)).
  - vm_compute. reflexivity.
  - vm_compute. reflexivity.
  - vm_compute. reflexivity.
  - vm_compute. reflexivity.
  - vm_compute. reflexivity.
Defined.

(** ** Dead exactly when out of health *)

Section Invariant.
Context {M : MathLib}.

Lemma invariant_set k v ps :
  dead_iff_no_health ps ->
  Player.isDead v = (Player.health v <=? 0)%float ->
  dead_iff_no_health (Players.set k v ps).
Proof.
  intros Hinv Hv sid p. rewrite get_set.
  destruct (String.eqb sid k).
  - now intros [= <-].
  - apply Hinv.
Qed.

Lemma invariant_delete k ps :
  dead_iff_no_health ps -> dead_iff_no_health (Players.delete k ps).
Proof.
  intros Hinv sid p. rewrite get_delete.
  destruct (String.eqb sid k); [discriminate | apply Hinv].
Qed.

Lemma invariant_apply_hit b pid p ps :
  Players.get pid ps = Some p ->
  Player.isDead p = false ->
  dead_iff_no_health ps ->
  dead_iff_no_health (fst (apply_hit b pid p ps)).
Proof.
  intros Hp Halive Hinv sid q Hq.
  destruct (String.eqb sid pid) eqn:E.
  - apply String.eqb_eq in E. subst sid.
    destruct (apply_hit_victim b pid p ps) as (p' & G & H & D).
    rewrite G in Hq. injection Hq as <-.
    now rewrite D, H, Halive.
  - apply String.eqb_neq in E.
    destruct (Players.get sid ps) as [q0|] eqn:G0.
    + destruct (apply_hit_other b pid p ps sid q0 E G0) as (q' & G & H & D).
      rewrite G in Hq. injection Hq as <-.
      rewrite H, D. now apply (Hinv sid).
    + (* a key that was absent stays absent *)
      exfalso. revert Hq. unfold apply_hit.
      destruct (Player.health _ <=? 0)%float; cbn [fst].
      * destruct (Players.get (Bullet.ownerId b) _) as [killer|] eqn:K.
        -- rewrite get_set.
           destruct (String.eqb sid (Bullet.ownerId b)) eqn:E'.
           ++ apply String.eqb_eq in E'. subst sid.
              rewrite !get_set_other in K by congruence. congruence.
           ++ rewrite !get_set_other by congruence. congruence.
        -- rewrite !get_set_other by congruence. congruence.
      * rewrite get_set_other by congruence. congruence.
Qed.

Lemma invariant_bullet_body i g :
  dead_iff_no_health (players g) ->
  dead_iff_no_health (players (fst (bullet_body i g))).
Proof.
  intros Hinv.
  destruct (bullet_body_outcome i g) as [N | b N D | b pid p N D S | b N D S];
    cbn [fst players]; auto.
  apply scan_found in S. destruct S as (_ & Hp & Hc & _).
  apply invariant_apply_hit; auto. now apply candidate_alive in Hc.
Qed.

Lemma invariant_bullet_loop n : forall g,
  dead_iff_no_health (players g) ->
  dead_iff_no_health (players (fst (bullet_loop n g))).
Proof.
  induction n as [|i IH]; intros g Hinv; simpl; auto.
  pose proof (invariant_bullet_body i g Hinv) as H1.
  destruct (bullet_body i g) as [g1 out1]. cbn [fst] in H1.
  specialize (IH g1 H1).
  now destruct (bullet_loop i g1).
Qed.

Lemma invariant_zone_body z pid ps :
  dead_iff_no_health ps -> dead_iff_no_health (fst (zone_body z pid ps)).
Proof.
  intros Hinv. unfold zone_body.
  destruct (Players.get pid ps) as [p|] eqn:G; auto.
  destruct (Player.isDead p) eqn:Dp; cbn [negb]; auto.
  destruct (Zone.radius z <? _)%float; auto.
  cbn [Player.health Player.with_health].
  destruct (Player.health p - 0.5 <=? 0)%float eqn:L; cbn [fst];
    apply invariant_set; auto; cbn; congruence.
Qed.

Lemma invariant_zone_loop z pids : forall ps,
  dead_iff_no_health ps -> dead_iff_no_health (fst (zone_loop z pids ps)).
Proof.
  induction pids as [|pid rest IH]; intros ps Hinv; simpl; auto.
  pose proof (invariant_zone_body z pid ps Hinv) as H1.
  destruct (zone_body z pid ps) as [ps1 out1]. cbn [fst] in H1.
  specialize (IH ps1 H1).
  now destruct (zone_loop z rest ps1).
Qed.

Lemma invariant_tick g :
  dead_iff_no_health (players g) ->
  dead_iff_no_health (players (fst (tick g))).
Proof.
  intros Hinv. unfold tick.
  pose proof (invariant_bullet_loop (List.length (bullets g)) g Hinv) as H1.
  destruct (bullet_loop _ g) as [g1 out1]. cbn [fst] in H1.
  pose proof (invariant_zone_loop (shrink (zone g1))
                (Players.keys (players g1)) (players g1) H1) as H2.
  now destruct (zone_loop _ _ (players g1)).
Qed.

Lemma invariant_step g i :
  dead_iff_no_health (players g) ->
  dead_iff_no_health (players (fst (step g i))).
Proof.
  intros Hinv. destruct i as [sid name mode rx ry | sid x y a | sid nid | sid |];
    cbn [step].
  - unfold on_join. cbn [fst players]. now apply invariant_set.
  - unfold on_move. destruct (Players.get sid (players g)) as [p|] eqn:G; auto.
    destruct (Player.isDead p) eqn:D; cbn [negb fst players]; auto.
    apply invariant_set; auto. cbn. rewrite D, <- (Hinv sid p G). now rewrite D.
  - unfold on_shoot. destruct (Players.get sid (players g)) as [p|]; auto.
    now destruct (Player.isDead p).
  - unfold on_disconnect. cbn [fst players]. now apply invariant_delete.
  - now apply invariant_tick.
Qed.

(** C4. In every state the server can reach, after any command and after
    any turn of the game loop, each player of the store has its dead flag
    set exactly when its health is at or below zero. *)
Theorem dead_flag_matches_health g :
  reachable g ->
  forall sid p,
    Players.get sid (players g) = Some p ->
    Player.isDead p = (Player.health p <=? 0)%float.
Proof.
  intros Hreach. change (dead_iff_no_health (players g)).
  induction Hreach as [|g i _ IH].
  - intros sid p H. discriminate H.
  - now apply invariant_step.
Qed.
End Invariant.

Lemma dead_flag_matches_health_witness :
  Player.isDead (Player.mk "B" "bob" 1015.625 1000 0 "B" 0 true 0)
  = (Player.health (Player.mk "B" "bob" 1015.625 1000 0 "B" 0 true 0) <=? 0)%float.
Proof.
  apply (dead_flag_matches_health (fst (run gameState last_stand))
           (run_reachable last_stand gameState reach_start) "B").
  vm_compute. reflexivity.
Defined.

(** ** The zone *)

Section ZoneOrbit.
Context {M : MathLib}.

Lemma zone_bullet_body i g : zone (fst (bullet_body i g)) = zone g.
Proof.
  now destruct (bullet_body_outcome i g).
Qed.

Lemma zone_bullet_loop n : forall g, zone (fst (bullet_loop n g)) = zone g.
Proof.
  induction n as [|i IH]; intros g; simpl; auto.
  pose proof (zone_bullet_body i g) as H1.
  destruct (bullet_body i g) as [g1 out1]. cbn [fst] in H1.
  specialize (IH g1).
  destruct (bullet_loop i g1). cbn [fst] in *. congruence.
Qed.

Lemma zone_tick g : zone (fst (tick g)) = shrink (zone g).
Proof.
  unfold tick.
  pose proof (zone_bullet_loop (List.length (bullets g)) g) as H1.
  destruct (bullet_loop _ g) as [g1 out1]. cbn [fst] in H1.
  destruct (zone_loop _ _ (players g1)). cbn [fst zone]. now rewrite H1.
Qed.

Lemma zone_step g i :
  zone (fst (step g i))
  = match i with
    | tock => shrink (zone g)
    | _ => zone g
    end.
Proof.
  destruct i as [sid name mode rx ry | sid x y a | sid nid | sid |];
    cbn [step]; auto using zone_tick.
  - unfold on_move. destruct (Players.get sid (players g)) as [p|]; auto.
    now destruct (Player.isDead p).
  - unfold on_shoot. destruct (Players.get sid (players g)) as [p|]; auto.
    now destruct (Player.isDead p).
Qed.

(** The zone of a state depends on the number of loop turns alone. *)
Lemma zone_run ins : forall g,
  zone (fst (run g ins)) = Nat.iter (ticks ins) shrink (zone g).
Proof.
  induction ins as [|i rest IH]; intros g; simpl; auto.
  pose proof (zone_step g i) as H1.
  destruct (step g i) as [g1 out1]. cbn [fst] in H1.
  specialize (IH g1).
  destruct (run g1 rest) as [g2 out2]. cbn [fst] in *.
  rewrite IH, H1.
  destruct i; auto. simpl. now rewrite <- Nat.iter_succ_r.
Qed.

Lemma ticks_repeat n : ticks (repeat tock n) = n.
Proof.
  induction n; simpl; auto.
Qed.

Lemma reachable_zone g :
  reachable g -> exists n, zone g = Nat.iter n shrink (zone gameState).
Proof.
  induction 1 as [|g i _ [n IH]].
  - now exists 0.
  - rewrite zone_step. destruct i; try now exists n.
    exists (S n). simpl. now rewrite IH.
Qed.
End ZoneOrbit.

Lemma orbit_holds_iter P n : forall z k,
  orbit_holds P n z = true -> k <= n -> P (Nat.iter k shrink z) = true.
Proof.
  induction n as [|n IH]; intros z k H Hk; simpl in H;
    apply andb_true_iff in H; destruct H as [Hz Hrest].
  - now replace k with 0 by lia.
  - destruct k as [|k]; auto.
    rewrite Nat.iter_succ_r. apply IH; auto. lia.
Qed.

Lemma iter_fixed z k : shrink z = z -> Nat.iter k shrink z = z.
Proof.
  intros H. induction k; simpl; congruence.
Qed.

(** The last radius above the floor. *)
Lemma zone_before_floor :
  Nat.iter 11499 shrink (zone gameState)
  = Zone.mk 1000 1000 50.099999999996186 1200.
Proof.
  vm_compute. reflexivity.
Qed.

(** After 11500 shrinks the zone no longer moves. *)
Lemma zone_settles k :
  Nat.iter (k + 11500) shrink (zone gameState)
  = Zone.mk 1000 1000 49.999999999996184 1200.
Proof.
  rewrite Nat.iter_add.
  replace 11500 with (S 11499) by reflexivity.
  rewrite Nat.iter_succ, zone_before_floor.
  apply iter_fixed. vm_compute. reflexivity.
Qed.

Lemma orbit_of_start P n :
  orbit_holds P 11500 (zone gameState) = true ->
  P (Nat.iter n shrink (zone gameState)) = true.
Proof.
  intros H. destruct (Nat.le_gt_cases n 11500) as [Hle|Hgt].
  - now apply orbit_holds_iter with 11500.
  - replace n with ((n - 11500) + 11500) by lia.
    rewrite zone_settles, <- (zone_settles 0).
    now apply orbit_holds_iter with 11500.
Qed.

(** X27. The half of C2 that holds: from a reachable state, a turn of the
    game loop never makes the radius larger. *)
Lemma zone_radius_non_increasing {M : MathLib} g :
  reachable g ->
  (Zone.radius (zone (fst (tick g))) <=? Zone.radius (zone g))%float = true.
Proof.
  intros Hreach. rewrite zone_tick.
  destruct (reachable_zone g Hreach) as [n ->].
  apply (orbit_of_start shrinks_or_stays n).
  vm_compute. reflexivity.
Qed.

Lemma reachable_tick {M : MathLib} g :
  reachable g -> reachable (fst (tick g)).
Proof.
  intros Hg. exact (reach_step g tock Hg).
Qed.

(** The turn of the game loop that crosses the floor. *)
Lemma tick_crosses_floor {M : MathLib} g :
  zone g = Zone.mk 1000 1000 50.099999999996186 1200 ->
  Zone.radius (zone (fst (tick g))) = 49.999999999996184%float
  /\ (Zone.radius (zone (fst (tick g))) <? 50)%float = true.
Proof.
  intros Hg. rewrite zone_tick, Hg. vm_compute. split; reflexivity.
Qed.

Lemma zone_after_11499_ticks {M : MathLib} :
  zone (fst (run gameState (repeat tock 11499)))
  = Zone.mk 1000 1000 50.099999999996186 1200.
Proof.
  rewrite zone_run, ticks_repeat. exact zone_before_floor.
Qed.

(** C2, the floor. The guard [radius > 50] lets a radius just above 50 take
    one more step of 0.1: from the start, 11499 turns of the game loop leave
    the radius at 50.099999999996186, and the next turn brings it to
    49.999999999996184, below the floor of 50. *)
Theorem zone_radius_falls_below_floor {M : MathLib} :
  reachable (fst (tick (fst (run gameState (repeat tock 11499)))))
  /\ Zone.radius (zone (fst (run gameState (repeat tock 11499))))
     = 50.099999999996186%float
  /\ Zone.radius (zone (fst (tick (fst (run gameState (repeat tock 11499))))))
     = 49.999999999996184%float
  /\ (Zone.radius (zone (fst (tick (fst (run gameState (repeat tock 11499))))))
      <? 50)%float = true.
Proof.
  pose proof zone_after_11499_ticks as Hg.
  split.
  - apply reachable_tick, run_reachable. constructor.
  - split; [now rewrite Hg|].
    now apply tick_crosses_floor.
Qed.

(** C3, as the code computes it. After 11500 turns of the game loop from the
    start, and after any number of further turns, the radius is
    49.999999999996184: it stays where it is, and it is not 50. *)
Theorem zone_radius_after_11500_ticks {M : MathLib} k :
  let g := fst (run gameState (repeat tock (k + 11500))) in
  Zone.radius (zone g) = 49.999999999996184%float
  /\ (Zone.radius (zone g) =? 50)%float = false.
Proof.
  cbv zeta. rewrite zone_run, ticks_repeat, zone_settles. cbn [Zone.radius].
  split; reflexivity.
Qed.

(** ** One bullet, one hit *)

Lemma hits_app out1 out2 : hits (out1 ++ out2) = hits out1 ++ hits out2.
Proof.
  induction out1 as [|o rest IH]; simpl; auto.
  destruct o; simpl; congruence.
Qed.

Lemma hit_ids_app out1 out2 :
  hit_ids (out1 ++ out2) = hit_ids out1 ++ hit_ids out2.
Proof.
  unfold hit_ids. now rewrite hits_app, map_app.
Qed.

Lemma occ_app l1 l2 x : occ (l1 ++ l2) x = occ l1 x + occ l2 x.
Proof. apply count_occ_app. Qed.

Lemma occ_nodup l : NoDup l <-> forall x, occ l x <= 1.
Proof. apply NoDup_count_occ. Qed.

Lemma occ_in l x : In x l <-> occ l x > 0.
Proof. apply count_occ_In. Qed.

Lemma nth_error_middle {A} (pre : list A) b post :
  nth_error (pre ++ b :: post) (List.length pre) = Some b.
Proof.
  induction pre; simpl; auto.
Qed.

Lemma firstn_prefix {A} (pre l : list A) :
  firstn (List.length pre) (pre ++ l) = pre.
Proof.
  induction pre; simpl; congruence.
Qed.

Lemma skipn_past_middle {A} (pre : list A) b post :
  skipn (S (List.length pre)) (pre ++ b :: post) = post.
Proof.
  induction pre; auto.
Qed.

Lemma splice1_middle {A} (pre : list A) b post :
  splice1 (List.length pre) (pre ++ b :: post) = pre ++ post.
Proof.
  unfold splice1. now rewrite firstn_prefix, skipn_past_middle.
Qed.

Lemma store_at_middle {A} (pre : list A) b b' post :
  store_at (List.length pre) b' (pre ++ b :: post) = pre ++ b' :: post.
Proof.
  unfold store_at. now rewrite firstn_prefix, skipn_past_middle.
Qed.

(** Counting goals over explicit lists: compute the counts, split on the
    comparisons that remain, and leave the arithmetic to [lia]. *)
Ltac occ_lia :=
  unfold occ in *; cbn [count_occ map hit_ids hits fst snd Bullet.id advance] in *;
  repeat match goal with
         | |- context [string_dec ?a ?b] => destruct (string_dec a b)
         end;
  lia.

Section OneHit.
Context {M : MathLib}.

Lemma apply_hit_hits b pid p ps :
  hits (snd (apply_hit b pid p ps)) = [(Bullet.id b, pid)].
Proof.
  unfold apply_hit. now destruct (Player.health _ <=? 0)%float.
Qed.

(** A turn of the loop on the bullet [b0] between [pre] and [post]: the
    bullet is kept (advanced) or not, and it is kept only if it did not hit. *)
Lemma bullet_body_ids g pre b0 post :
  bullets g = pre ++ b0 :: post ->
  exists mid,
    bullets (fst (bullet_body (List.length pre) g)) = pre ++ mid ++ post
    /\ forall x,
         occ (hit_ids (snd (bullet_body (List.length pre) g))) x
         + occ (map Bullet.id mid) x
         <= occ [Bullet.id b0] x.
Proof.
  intros Hb.
  destruct (bullet_body_outcome (List.length pre) g)
    as [N | b N D | b pid p N D S | b N D S];
    rewrite Hb, nth_error_middle in N; try discriminate N; injection N as <-;
    cbn [fst snd bullets]; rewrite Hb.
  - exists []. rewrite splice1_middle. split; [reflexivity|].
    intros x. occ_lia.
  - exists []. rewrite splice1_middle. split; [reflexivity|].
    intros x. unfold hit_ids. rewrite apply_hit_hits. occ_lia.
  - exists [advance b0]. rewrite store_at_middle. split; [reflexivity|].
    intros x. occ_lia.
Qed.

Lemma bullet_loop_ids n : forall g pre post,
  bullets g = pre ++ post ->
  List.length pre = n ->
  exists kept,
    bullets (fst (bullet_loop n g)) = kept ++ post
    /\ forall x,
         occ (hit_ids (snd (bullet_loop n g))) x + occ (map Bullet.id kept) x
         <= occ (map Bullet.id pre) x.
Proof.
  induction n as [|i IH]; intros g pre post Hb Hlen.
  - destruct pre; [|discriminate]. exists []. split; auto.
  - destruct (exists_last (l := pre)) as (pre' & b0 & ->);
      [intros ->; discriminate|].
    rewrite length_app in Hlen. simpl in Hlen.
    assert (Hi : List.length pre' = i) by lia. subst i.
    rewrite <- app_assoc in Hb. simpl in Hb.
    destruct (bullet_body_ids g pre' b0 post Hb) as (mid & Hb1 & Hc1).
    simpl. destruct (bullet_body (List.length pre') g) as [g1 out1].
    cbn [fst snd] in Hb1, Hc1.
    destruct (IH g1 pre' (mid ++ post) Hb1 eq_refl) as (kept & Hb2 & Hc2).
    destruct (bullet_loop (List.length pre') g1) as [g2 out2].
    cbn [fst snd] in *.
    exists (kept ++ mid). split.
    + now rewrite <- app_assoc.
    + intros x. specialize (Hc1 x). specialize (Hc2 x).
      rewrite hit_ids_app, !map_app, !occ_app. simpl map. lia.
Qed.

Lemma zone_body_hits z pid ps : hits (snd (zone_body z pid ps)) = [].
Proof.
  unfold zone_body. destruct (Players.get pid ps) as [p|]; auto.
  destruct (Player.isDead p); auto. cbn [negb].
  destruct (Zone.radius z <? _)%float; auto.
  now destruct (Player.health _ <=? 0)%float.
Qed.

Lemma zone_loop_hits z pids : forall ps, hits (snd (zone_loop z pids ps)) = [].
Proof.
  induction pids as [|pid rest IH]; intros ps; simpl; auto.
  pose proof (zone_body_hits z pid ps) as H1.
  destruct (zone_body z pid ps) as [ps1 out1].
  specialize (IH ps1).
  destruct (zone_loop z rest ps1) as [ps2 out2]. cbn [snd] in *.
  now rewrite hits_app, H1, IH.
Qed.

(** Over a turn of the game loop, an id is hit or kept at most as often as
    it was in the bullet array. *)
Lemma tick_ids g x :
  occ (hit_ids (snd (tick g))) x + occ (bullet_ids (fst (tick g))) x
  <= occ (bullet_ids g) x.
Proof.
  unfold tick, bullet_ids.
  destruct (bullet_loop_ids (List.length (bullets g)) g (bullets g) []
              (eq_sym (app_nil_r _)) eq_refl) as (kept & Hb & Hc).
  specialize (Hc x).
  destruct (bullet_loop _ g) as [g1 out1]. cbn [fst snd] in Hb, Hc.
  pose proof (zone_loop_hits (shrink (zone g1)) (Players.keys (players g1))
                (players g1)) as Hz.
  destruct (zone_loop _ _ (players g1)) as [ps out2]. cbn [fst snd bullets] in *.
  rewrite app_nil_r in Hb. subst kept.
  unfold hit_ids in *. rewrite !hits_app, Hz. simpl. rewrite app_nil_r.
  exact Hc.
Qed.

Lemma step_ids g i x :
  occ (hit_ids (snd (step g i))) x + occ (bullet_ids (fst (step g i))) x
  <= occ (bullet_ids g ++ shoot_ids [i]) x.
Proof.
  assert (Hquiet : forall g', bullets g' = bullets g ->
            occ (hit_ids []) x + occ (bullet_ids g') x <= occ (bullet_ids g) x).
  { intros g' E. unfold bullet_ids. rewrite E. cbn. lia. }
  destruct i as [sid name mode rx ry | sid x' y a | sid nid | sid |];
    cbn [step shoot_ids]; rewrite ?app_nil_r.
  - now apply Hquiet.
  - unfold on_move. destruct (Players.get sid (players g)) as [p|];
      [destruct (Player.isDead p)|]; now apply Hquiet.
  - rewrite occ_app. unfold on_shoot.
    destruct (Players.get sid (players g)) as [p|];
      [destruct (Player.isDead p)|]; cbn [negb fst snd].
    + specialize (Hquiet g eq_refl). lia.
    + unfold bullet_ids. cbn [bullets]. rewrite map_app, occ_app.
      cbn [map Bullet.id hit_ids hits]. change (occ [] x) with 0. lia.
    + specialize (Hquiet g eq_refl). lia.
  - now apply Hquiet.
  - apply tick_ids.
Qed.

Lemma shoot_ids_cons i rest : shoot_ids (i :: rest) = shoot_ids [i] ++ shoot_ids rest.
Proof.
  now destruct i.
Qed.

Lemma run_ids ins : forall g x,
  occ (hit_ids (snd (run g ins))) x + occ (bullet_ids (fst (run g ins))) x
  <= occ (bullet_ids g ++ shoot_ids ins) x.
Proof.
  induction ins as [|i rest IH]; intros g x.
  - simpl. rewrite app_nil_r. cbn. lia.
  - pose proof (step_ids g i x) as H1.
    simpl run. destruct (step g i) as [g1 out1]. cbn [fst snd] in H1.
    specialize (IH g1 x).
    destruct (run g1 rest) as [g2 out2]. cbn [fst snd] in *.
    rewrite occ_app in H1, IH.
    rewrite shoot_ids_cons, hit_ids_app, !occ_app. lia.
Qed.

(** C7. A turn of the bullet loop changes the players only when its bullet
    hits, it hits one player, the others keep their health and the bullet
    leaves the array at once; a bullet that hit during a turn of the game
    loop is in no later state; and over any execution in which the bullet
    ids are pairwise distinct, no bullet hits twice. *)
Theorem bullet_hits_at_most_once :
  (forall i g,
      (hits (snd (bullet_body i g)) = []
       /\ players (fst (bullet_body i g)) = players g)
      \/ (exists b0 v,
             nth_error (bullets g) i = Some b0
             /\ hits (snd (bullet_body i g)) = [(Bullet.id b0, v)]
             /\ bullets (fst (bullet_body i g)) = splice1 i (bullets g)
             /\ forall k q,
                  k <> v ->
                  Players.get k (players g) = Some q ->
                  exists q',
                    Players.get k (players (fst (bullet_body i g))) = Some q'
                    /\ Player.health q' = Player.health q))
  /\ (forall g bid,
         NoDup (bullet_ids g) ->
         In bid (hit_ids (snd (tick g))) ->
         ~ In bid (bullet_ids (fst (tick g))))
  /\ (forall g ins,
         NoDup (bullet_ids g ++ shoot_ids ins) ->
         NoDup (hit_ids (snd (run g ins)))
         /\ forall bid,
              In bid (hit_ids (snd (run g ins))) ->
              ~ In bid (bullet_ids (fst (run g ins)))).
Proof.
  split; [|split].
  - intros i g.
    destruct (bullet_body_outcome i g) as [N | b N D | b pid p N D S | b N D S];
      cbn [fst snd players bullets]; auto.
    right. exists b, pid. rewrite apply_hit_hits.
    repeat split; auto.
    intros k q Hne Hq.
    destruct (apply_hit_other (advance b) pid p (players g) k q Hne Hq)
      as (q' & G & H & _).
    eauto.
  - intros g bid Hnd Hin Hkept.
    apply occ_nodup with (x := bid) in Hnd.
    apply occ_in in Hin. apply occ_in in Hkept.
    pose proof (tick_ids g bid). lia.
  - intros g ins Hnd. split.
    + apply occ_nodup. intros x.
      apply occ_nodup with (x := x) in Hnd.
      pose proof (run_ids ins g x). lia.
    + intros bid Hin Hkept.
      apply occ_nodup with (x := bid) in Hnd.
      apply occ_in in Hin. apply occ_in in Hkept.
      pose proof (run_ids ins g bid). lia.
Qed.
End OneHit.

Lemma bullet_hits_at_most_once_witness :
  NoDup (hit_ids (snd (run gameState last_stand)))
  /\ forall bid,
       In bid (hit_ids (snd (run gameState last_stand))) ->
       ~ In bid (bullet_ids (fst (run gameState last_stand))).
Proof.
  apply (proj2 (proj2 bullet_hits_at_most_once) gameState last_stand).
  repeat constructor; simpl; intuition discriminate.
Defined.

(** * Further properties of the server *)

(** ** The order of binary64 numbers

    [<?], [<=?] and [=?] read through the specification of the primitive
    floats: every number that is not NaN is comparable with every other. *)

Section FloatOrder.
Import SpecFloat FloatOps FloatAxioms.

Lemma SFcompare_antisym a b :
  SFcompare b a = option_map CompOpp (SFcompare a b).
Proof.
  destruct a as [sa| sa | |sa ma ea], b as [sb| sb | |sb mb eb]; simpl; auto;
    try (destruct sa; reflexivity); try (destruct sb; reflexivity);
    try (destruct sa, sb; reflexivity).
  destruct sa, sb; simpl; auto;
    rewrite (BinInt.Z.compare_antisym ea eb);
    destruct (BinInt.Z.compare ea eb) eqn:E; simpl; auto;
    now rewrite (BinPos.Pos.compare_cont_antisym ma mb Eq).
Qed.

Lemma SFcompare_refl a : a <> S754_nan -> SFcompare a a = Some Eq.
Proof.
  destruct a as [s|s| |s m e]; simpl; try congruence; intros _.
  - now destruct s.
  - destruct s;
      rewrite BinInt.Z.compare_refl, BinPos.Pos.compare_cont_refl; reflexivity.
Qed.

Lemma SFcompare_nan a b :
  SFcompare a b = None <-> a = S754_nan \/ b = S754_nan.
Proof.
  destruct a as [sa| sa | |sa ma ea], b as [sb| sb | |sb mb eb]; simpl;
    (split;
     [intros H; try discriminate H; auto
     | intros [H|H]; try discriminate H; auto]).
Qed.

Lemma is_nan_spec x : is_nan x = false <-> Prim2SF x <> S754_nan.
Proof.
  unfold is_nan. rewrite eqb_spec. unfold SFeqb. split.
  - intros H E. rewrite E in H. discriminate.
  - intros H. now rewrite SFcompare_refl.
Qed.

Lemma ltb_leb x y : (x <? y)%float = true -> (x <=? y)%float = true.
Proof.
  rewrite ltb_spec, leb_spec. unfold SFltb, SFleb.
  now destruct (SFcompare _ _) as [[]|].
Qed.

Lemma not_ltb_leb x y :
  is_nan x = false -> is_nan y = false ->
  (y <? x)%float = false -> (x <=? y)%float = true.
Proof.
  rewrite !is_nan_spec, ltb_spec, leb_spec. unfold SFltb, SFleb.
  intros Hx Hy. rewrite (SFcompare_antisym (Prim2SF x) (Prim2SF y)).
  destruct (SFcompare (Prim2SF x) (Prim2SF y)) as [[]|] eqn:E; simpl; auto.
  apply SFcompare_nan in E. tauto.
Qed.

Lemma leb_not_ltb x y : (x <=? y)%float = true -> (y <? x)%float = false.
Proof.
  rewrite ltb_spec, leb_spec. unfold SFltb, SFleb.
  rewrite (SFcompare_antisym (Prim2SF x) (Prim2SF y)).
  now destruct (SFcompare (Prim2SF x) (Prim2SF y)) as [[]|].
Qed.

Lemma leb_not_nan x y :
  (x <=? y)%float = true -> is_nan x = false /\ is_nan y = false.
Proof.
  rewrite leb_spec, !is_nan_spec. unfold SFleb.
  destruct (SFcompare _ _) as [c|] eqn:E; [|discriminate].
  intros _. split; intros H; rewrite H in E; simpl in E; try discriminate.
  now destruct (Prim2SF x).
Qed.

Lemma leb_not_ltb_eqb x y :
  (x <=? y)%float = true -> (x <? y)%float = false -> (x =? y)%float = true.
Proof.
  rewrite ltb_spec, leb_spec, eqb_spec. unfold SFltb, SFleb, SFeqb.
  now destruct (SFcompare (Prim2SF x) (Prim2SF y)) as [[]|].
Qed.

Lemma eqb_refl_not_nan x : is_nan x = false -> (x =? x)%float = true.
Proof.
  unfold is_nan. now destruct (x =? x)%float.
Qed.
End FloatOrder.

(** ** Clamping: [Math.max(0, Math.min(MAP_SIZE, v))] *)

Lemma min_with_map_size v :
  is_nan v = false ->
  Math_min MAP_SIZE v = (if (MAP_SIZE <? v)%float then MAP_SIZE else v).
Proof.
  intros Hv. unfold Math_min. rewrite Hv.
  change (is_nan MAP_SIZE) with false. cbn [orb].
  destruct (MAP_SIZE <? v)%float; auto.
  change (get_sign MAP_SIZE) with false.
  now destruct (v <? MAP_SIZE)%float.
Qed.

Lemma max_with_zero v :
  is_nan v = false ->
  Math_max 0 v = (if (0 <? v)%float then v else 0%float).
Proof.
  intros Hv. unfold Math_max. rewrite Hv.
  change (is_nan 0) with false. cbn [orb].
  destruct (0 <? v)%float; auto.
  change (get_sign 0) with false.
  now destruct (v <? 0)%float.
Qed.

Lemma clamp_in_range v :
  is_nan v = false ->
  (0 <=? Math_max 0 (Math_min MAP_SIZE v))%float = true
  /\ (Math_max 0 (Math_min MAP_SIZE v) <=? MAP_SIZE)%float = true.
Proof.
  intros Hv. rewrite (min_with_map_size v Hv).
  assert (Hm : is_nan (if (MAP_SIZE <? v)%float then MAP_SIZE else v) = false)
    by (destruct (MAP_SIZE <? v)%float; auto).
  assert (Hle : ((if (MAP_SIZE <? v)%float then MAP_SIZE else v) <=? MAP_SIZE)%float
                = true).
  { destruct (MAP_SIZE <? v)%float eqn:E; [reflexivity|].
    now apply not_ltb_leb. }
  rewrite (max_with_zero _ Hm).
  destruct (0 <? _)%float eqn:E0.
  - split; [now apply ltb_leb | exact Hle].
  - split; reflexivity.
Qed.

Lemma clamp_of_in_range v :
  (0 <=? v)%float = true ->
  (v <=? MAP_SIZE)%float = true ->
  (Math_max 0 (Math_min MAP_SIZE v) =? v)%float = true
  /\ ((0 <? v)%float = true -> Math_max 0 (Math_min MAP_SIZE v) = v).
Proof.
  intros H0 H1.
  destruct (leb_not_nan _ _ H1) as [Hv _].
  rewrite (min_with_map_size v Hv), (leb_not_ltb _ _ H1).
  rewrite (max_with_zero v Hv).
  destruct (0 <? v)%float eqn:E.
  - split; [now apply eqb_refl_not_nan | reflexivity].
  - split; [|discriminate]. now apply leb_not_ltb_eqb.
Qed.

(** ** The move and shoot handlers *)


(** X1. A move of a living player with coordinates that are numbers puts the
    player inside the square [0, MAP_SIZE] on both axes, takes the angle as
    it comes, and leaves health, kills, team and the dead flag alone. *)
Theorem move_clamps_into_arena sid x y angle g p :
  Players.get sid (players g) = Some p ->
  Player.isDead p = false ->
  is_nan x = false ->
  is_nan y = false ->
  exists p',
    Players.get sid (players (fst (on_move sid x y angle g))) = Some p'
    /\ (0 <=? Player.x p')%float = true
    /\ (Player.x p' <=? MAP_SIZE)%float = true
    /\ (0 <=? Player.y p')%float = true
    /\ (Player.y p' <=? MAP_SIZE)%float = true
    /\ Player.angle p' = angle
    /\ Player.health p' = Player.health p
    /\ Player.kills p' = Player.kills p
    /\ Player.teamId p' = Player.teamId p
    /\ Player.isDead p' = false.
Proof.
  intros Hp Halive Hx Hy. unfold on_move. rewrite Hp, Halive. cbn [negb fst players].
  rewrite get_set_same. eexists. split; [reflexivity|].
  cbn [Player.x Player.y Player.angle Player.health Player.kills Player.teamId
       Player.isDead Player.with_position].
  destruct (clamp_in_range x Hx), (clamp_in_range y Hy).
  repeat split; auto.
Qed.

Lemma move_clamps_into_arena_witness :
  exists p',
    Players.get "A"
      (players (fst (on_move "A" 2500 (-3) 1 (fst (run gameState two_players)))))
    = Some p'
    /\ (0 <=? Player.x p')%float = true
    /\ (Player.x p' <=? MAP_SIZE)%float = true
    /\ (0 <=? Player.y p')%float = true
    /\ (Player.y p' <=? MAP_SIZE)%float = true
    /\ Player.angle p' = 1%float
    /\ Player.health p' = 100%float
    /\ Player.kills p' = 0
    /\ Player.teamId p' = "A"
    /\ Player.isDead p' = false.
Proof.
  apply (move_clamps_into_arena "A" 2500 (-3) 1 (fst (run gameState two_players))
           (Player.mk "A" "Player" 1000 1000 100 "A" 0 false 0)).
  - vm_compute. reflexivity.
  - reflexivity.
  - reflexivity.
  - reflexivity.
Defined.

(** X2. A move of a living player to coordinates already inside the square
    stores numbers equal to the ones sent; a coordinate above zero is stored
    bit for bit. *)
Theorem move_inside_arena_is_exact sid x y angle g p :
  Players.get sid (players g) = Some p ->
  Player.isDead p = false ->
  (0 <=? x)%float = true -> (x <=? MAP_SIZE)%float = true ->
  (0 <=? y)%float = true -> (y <=? MAP_SIZE)%float = true ->
  exists p',
    Players.get sid (players (fst (on_move sid x y angle g))) = Some p'
    /\ (Player.x p' =? x)%float = true
    /\ (Player.y p' =? y)%float = true
    /\ ((0 <? x)%float = true -> Player.x p' = x)
    /\ ((0 <? y)%float = true -> Player.y p' = y).
Proof.
  intros Hp Halive Hx0 Hx1 Hy0 Hy1.
  unfold on_move. rewrite Hp, Halive. cbn [negb fst players].
  rewrite get_set_same. eexists. split; [reflexivity|].
  cbn [Player.x Player.y Player.with_position].
  destruct (clamp_of_in_range x Hx0 Hx1), (clamp_of_in_range y Hy0 Hy1).
  repeat split; auto.
Qed.

Lemma move_inside_arena_is_exact_witness :
  exists p',
    Players.get "A"
      (players (fst (on_move "A" 12.5 0 1 (fst (run gameState two_players)))))
    = Some p'
    /\ (Player.x p' =? 12.5)%float = true
    /\ (Player.y p' =? 0)%float = true
    /\ ((0 <? 12.5)%float = true -> Player.x p' = 12.5%float)
    /\ ((0 <? 0)%float = true -> Player.y p' = 0%float).
Proof.
  apply (move_inside_arena_is_exact "A" 12.5 0 1 (fst (run gameState two_players))
           (Player.mk "A" "Player" 1000 1000 100 "A" 0 false 0)).
  - vm_compute. reflexivity.
  - reflexivity.
  - reflexivity.
  - reflexivity.
  - reflexivity.
  - reflexivity.
Defined.



(** ** Joining and leaving *)

Lemma delete_set_fresh k v ps :
  Players.get k ps = None -> Players.delete k (Players.set k v ps) = ps.
Proof.
  induction ps as [|[k0 q] rest IH]; simpl.
  - now rewrite String.eqb_refl.
  - destruct (String.eqb k k0) eqn:E; [discriminate|].
    intros H. simpl. now rewrite E, IH.
Qed.

Lemma get_none_not_in k ps : Players.get k ps = None -> ~ In k (Players.keys ps).
Proof.
  induction ps as [|[k0 q] rest IH]; simpl; auto.
  destruct (String.eqb k k0) eqn:E; [discriminate|].
  apply String.eqb_neq in E. intros H [H1|H1]; [congruence | now apply IH].
Qed.

Lemma in_keys_get k ps : In k (Players.keys ps) -> exists p, Players.get k ps = Some p.
Proof.
  induction ps as [|[k0 q] rest IH]; simpl; [tauto|].
  destruct (String.eqb k k0) eqn:E; eauto.
  apply String.eqb_neq in E. intros [H|H]; [congruence | auto].
Qed.

Lemma keys_delete_incl k k' ps :
  In k' (Players.keys (Players.delete k ps)) -> In k' (Players.keys ps).
Proof.
  induction ps as [|[k0 q] rest IH]; simpl; auto.
  destruct (String.eqb k k0); simpl; tauto.
Qed.

Lemma nodup_keys_set k v ps :
  NoDup (Players.keys ps) -> NoDup (Players.keys (Players.set k v ps)).
Proof.
  intros H. destruct (Players.get k ps) as [p|] eqn:G.
  - now rewrite (keys_set_present k v ps p G).
  - rewrite (keys_set_fresh k v ps G).
    apply NoDup_app; auto.
    + repeat constructor. simpl. tauto.
    + intros a Ha [<-|[]]. now apply (get_none_not_in k ps).
Qed.

Lemma nodup_keys_delete k ps :
  NoDup (Players.keys ps) -> NoDup (Players.keys (Players.delete k ps)).
Proof.
  induction ps as [|[k0 q] rest IH]; simpl; auto.
  intros H. apply NoDup_cons_iff in H. destruct H as [Hn Hr].
  destruct (String.eqb k k0); simpl; auto.
  constructor; auto. intros Hin. apply Hn. now apply keys_delete_incl in Hin.
Qed.

(** X4. When a session that has no player joins and then disconnects, the
    state is the one before the join: the store keeps no trace of it. *)
Theorem join_then_disconnect sid name mode rx ry g :
  Players.get sid (players g) = None ->
  fst (on_disconnect sid (fst (on_join sid name mode rx ry g))) = g.
Proof.
  intros H. unfold on_disconnect, on_join. cbn [fst players bullets zone].
  rewrite (delete_set_fresh _ _ _ H). now destruct g.
Qed.

Lemma join_then_disconnect_witness :
  fst (on_disconnect "C"
         (fst (on_join "C" "carol" "duo" 0.5 0.5 (fst (run gameState team_mates)))))
  = fst (run gameState team_mates).
Proof.
  apply (join_then_disconnect "C" "carol" "duo" 0.5%float 0.5%float
           (fst (run gameState team_mates))).
  vm_compute. reflexivity.
Defined.

(** X5. A disconnect removes the player of that session and nothing else:
    every other player is as before, and so is every bullet, those the
    leaver fired included. *)
Theorem disconnect_removes_one_player sid g :
  Players.get sid (players (fst (on_disconnect sid g))) = None
  /\ (forall k,
         String.eqb k sid = false ->
         Players.get k (players (fst (on_disconnect sid g)))
         = Players.get k (players g))
  /\ bullets (fst (on_disconnect sid g)) = bullets g
  /\ zone (fst (on_disconnect sid g)) = zone g.
Proof.
  unfold on_disconnect. cbn [fst players bullets zone].
  repeat split.
  - now rewrite get_delete, String.eqb_refl.
  - intros k Hk. now rewrite get_delete, Hk.
Qed.

(** ** What the game loop leaves alone *)

Section LoopFrame.
Context {M : MathLib}.

Lemma apply_hit_keys b pid p ps :
  Players.get pid ps = Some p ->
  Players.keys (fst (apply_hit b pid p ps)) = Players.keys ps.
Proof.
  intros Hp. unfold apply_hit.
  assert (K1 : forall v, Players.keys (Players.set pid v ps) = Players.keys ps)
    by (intros; now apply keys_set_present with p).
  assert (K2 : forall v w,
             Players.keys (Players.set pid v (Players.set pid w ps))
             = Players.keys ps).
  { intros. rewrite keys_set_present with (p := w); auto using get_set_same. }
  destruct (Player.health _ <=? 0)%float; cbn [fst]; auto.
  destruct (Players.get (Bullet.ownerId b) _) as [killer|] eqn:K; auto.
  now rewrite keys_set_present with (p := killer).
Qed.

Lemma bullet_body_keys i g :
  Players.keys (players (fst (bullet_body i g))) = Players.keys (players g).
Proof.
  destruct (bullet_body_outcome i g) as [N | b N D | b pid p N D S | b N D S];
    cbn [fst players]; auto.
  apply scan_found in S. now apply apply_hit_keys.
Qed.

Lemma bullet_loop_keys n : forall g,
  Players.keys (players (fst (bullet_loop n g))) = Players.keys (players g).
Proof.
  induction n as [|i IH]; intros g; simpl; auto.
  pose proof (bullet_body_keys i g) as H1.
  destruct (bullet_body i g) as [g1 out1]. cbn [fst] in H1.
  specialize (IH g1).
  destruct (bullet_loop i g1). cbn [fst] in *. congruence.
Qed.

Lemma zone_body_keys z pid ps :
  Players.keys (fst (zone_body z pid ps)) = Players.keys ps.
Proof.
  unfold zone_body. destruct (Players.get pid ps) as [p|] eqn:G; auto.
  destruct (Player.isDead p); auto. cbn [negb].
  destruct (Zone.radius z <? _)%float; auto.
  destruct (Player.health _ <=? 0)%float; cbn [fst];
    now apply keys_set_present with p.
Qed.

Lemma zone_loop_keys z pids : forall ps,
  Players.keys (fst (zone_loop z pids ps)) = Players.keys ps.
Proof.
  induction pids as [|pid rest IH]; intros ps; simpl; auto.
  pose proof (zone_body_keys z pid ps) as H1.
  destruct (zone_body z pid ps) as [ps1 out1]. cbn [fst] in H1.
  specialize (IH ps1).
  destruct (zone_loop z rest ps1). cbn [fst] in *. congruence.
Qed.

Lemma tick_keys g :
  Players.keys (players (fst (tick g))) = Players.keys (players g).
Proof.
  unfold tick.
  pose proof (bullet_loop_keys (List.length (bullets g)) g) as H1.
  destruct (bullet_loop _ g) as [g1 out1]. cbn [fst] in H1.
  pose proof (zone_loop_keys (shrink (zone g1)) (Players.keys (players g1))
                (players g1)) as H2.
  destruct (zone_loop _ _ (players g1)). cbn [fst players] in *. congruence.
Qed.

(** X6. A turn of the game loop neither adds nor removes a player, and keeps
    the players in their order: the dead stay in the store. *)
Theorem tick_keeps_the_players g :
  Players.keys (players (fst (tick g))) = Players.keys (players g)
  /\ forall k,
       Players.get k (players (fst (tick g))) = None
       <-> Players.get k (players g) = None.
Proof.
  split; [apply tick_keys|].
  intros k. pose proof (tick_keys g) as H.
  split; intros Hn.
  - destruct (Players.get k (players g)) as [p|] eqn:G; auto.
    apply get_in_keys in G. rewrite <- H in G.
    apply in_keys_get in G. destruct G as [q G]. congruence.
  - destruct (Players.get k (players (fst (tick g)))) as [p|] eqn:G; auto.
    apply get_in_keys in G. rewrite H in G.
    apply in_keys_get in G. destruct G as [q G]. congruence.
Qed.
End LoopFrame.

(** ** Properties of single players that the game loop keeps

    The game loop writes a player's health, dead flag and kill count and no
    other field, so it keeps every property of the players of the store that
    these three writes keep. *)

Section Playerwise.
Context {M : MathLib}.
Variable Q : string -> Player.t -> Prop.
Hypothesis Q_health : forall k p h, Q k p -> Q k (Player.with_health p h).
Hypothesis Q_isDead : forall k p d, Q k p -> Q k (Player.with_isDead p d).
Hypothesis Q_kills : forall k p n, Q k p -> Q k (Player.with_kills p n).

Definition holds_of_all (ps : Players.t) : Prop :=
  forall k p, Players.get k ps = Some p -> Q k p.

Lemma holds_set k v ps :
  holds_of_all ps -> Q k v -> holds_of_all (Players.set k v ps).
Proof.
  intros H Hv k' p. rewrite get_set.
  destruct (String.eqb k' k) eqn:E.
  - apply String.eqb_eq in E. subst. now intros [= <-].
  - apply H.
Qed.

Lemma holds_apply_hit b pid p ps :
  Players.get pid ps = Some p ->
  holds_of_all ps ->
  holds_of_all (fst (apply_hit b pid p ps)).
Proof.
  intros Hp H. unfold apply_hit.
  pose proof (H pid p Hp) as Qp.
  destruct (Player.health _ <=? 0)%float; cbn [fst].
  - destruct (Players.get (Bullet.ownerId b) _) as [killer|] eqn:K.
    + apply holds_set.
      * repeat apply holds_set; auto.
      * apply Q_kills.
        revert K. now apply (holds_set pid _ (Players.set pid _ ps)); auto using holds_set.
    + repeat apply holds_set; auto.
  - apply holds_set; auto.
Qed.

Lemma holds_bullet_body i g :
  holds_of_all (players g) -> holds_of_all (players (fst (bullet_body i g))).
Proof.
  intros H.
  destruct (bullet_body_outcome i g) as [N | b N D | b pid p N D S | b N D S];
    cbn [fst players]; auto.
  apply scan_found in S. now apply holds_apply_hit.
Qed.

Lemma holds_bullet_loop n : forall g,
  holds_of_all (players g) -> holds_of_all (players (fst (bullet_loop n g))).
Proof.
  induction n as [|i IH]; intros g H; simpl; auto.
  pose proof (holds_bullet_body i g H) as H1.
  destruct (bullet_body i g) as [g1 out1]. cbn [fst] in H1.
  specialize (IH g1 H1).
  now destruct (bullet_loop i g1).
Qed.

Lemma holds_zone_body z pid ps :
  holds_of_all ps -> holds_of_all (fst (zone_body z pid ps)).
Proof.
  intros H. unfold zone_body.
  destruct (Players.get pid ps) as [p|] eqn:G; auto.
  destruct (Player.isDead p); auto. cbn [negb].
  destruct (Zone.radius z <? _)%float; auto.
  pose proof (H pid p G) as Qp.
  destruct (Player.health _ <=? 0)%float; cbn [fst]; apply holds_set; auto.
Qed.

Lemma holds_zone_loop z pids : forall ps,
  holds_of_all ps -> holds_of_all (fst (zone_loop z pids ps)).
Proof.
  induction pids as [|pid rest IH]; intros ps H; simpl; auto.
  pose proof (holds_zone_body z pid ps H) as H1.
  destruct (zone_body z pid ps) as [ps1 out1]. cbn [fst] in H1.
  specialize (IH ps1 H1).
  now destruct (zone_loop z rest ps1).
Qed.

Lemma holds_tick g :
  holds_of_all (players g) -> holds_of_all (players (fst (tick g))).
Proof.
  intros H. unfold tick.
  pose proof (holds_bullet_loop (List.length (bullets g)) g H) as H1.
  destruct (bullet_loop _ g) as [g1 out1]. cbn [fst] in H1.
  pose proof (holds_zone_loop (shrink (zone g1)) (Players.keys (players g1))
                (players g1) H1) as H2.
  now destruct (zone_loop _ _ (players g1)).
Qed.
End Playerwise.

Lemma tick_get_some {M : MathLib} g k q :
  Players.get k (players g) = Some q ->
  exists q', Players.get k (players (fst (tick g))) = Some q'.
Proof.
  intros G. apply get_in_keys in G. rewrite <- (tick_keys g) in G.
  now apply in_keys_get.
Qed.

Lemma own_id_step {M : MathLib} g i :
  stored_under_own_id (players g) ->
  stored_under_own_id (players (fst (step g i))).
Proof.
  intros H. destruct i as [sid name mode rx ry | sid x y a | sid nid | sid |];
    cbn [step].
  - intros k p. rewrite get_after_join.
    destruct (String.eqb k sid) eqn:E; [|apply H].
    apply String.eqb_eq in E. now intros [= <-].
  - unfold on_move. destruct (Players.get sid (players g)) as [p|] eqn:G; auto.
    destruct (Player.isDead p); cbn [negb fst players]; auto.
    intros k q. rewrite get_set.
    destruct (String.eqb k sid) eqn:E; [|apply H].
    apply String.eqb_eq in E. subst k. intros [= <-]. cbn. now apply (H sid).
  - unfold on_shoot. destruct (Players.get sid (players g)) as [p|]; auto.
    now destruct (Player.isDead p).
  - unfold on_disconnect. cbn [fst players]. intros k p. rewrite get_delete.
    destruct (String.eqb k sid); [discriminate | apply H].
  - now apply (holds_tick (fun k p => Player.id p = k)).
Qed.

Lemma own_id_reachable {M : MathLib} g : reachable g -> stored_under_own_id (players g).
Proof.
  induction 1 as [|g i _ IH].
  - intros k p H. discriminate H.
  - now apply own_id_step.
Qed.

(** X7. In every state the server can reach, each player is stored under
    the session id its [id] field holds. *)
Theorem players_keyed_by_id {M : MathLib} g :
  reachable g ->
  forall k p, Players.get k (players g) = Some p -> Player.id p = k.
Proof.
  exact (own_id_reachable g).
Qed.

Lemma players_keyed_by_id_witness :
  Player.id (Player.mk "B" "bob" 1015.625 1000 0 "B" 0 true 0) = "B".
Proof.
  apply (players_keyed_by_id (fst (run gameState last_stand))
           (run_reachable last_stand gameState reach_start) "B").
  vm_compute. reflexivity.
Defined.

(** X8. A turn of the game loop moves nobody and renames nobody: each
    player keeps its id, name, position, angle and team. *)
Theorem tick_keeps_identity_and_position {M : MathLib} g k q :
  Players.get k (players g) = Some q ->
  exists q',
    Players.get k (players (fst (tick g))) = Some q'
    /\ Player.id q' = Player.id q
    /\ Player.name q' = Player.name q
    /\ Player.x q' = Player.x q
    /\ Player.y q' = Player.y q
    /\ Player.angle q' = Player.angle q
    /\ Player.teamId q' = Player.teamId q.
Proof.
  intros G. destruct (tick_get_some g k q G) as [q' G'].
  exists q'. split; [exact G'|].
  pose (Q := fun k' (p : Player.t) =>
               forall q0, Players.get k' (players g) = Some q0 ->
                 Player.id p = Player.id q0
                 /\ Player.name p = Player.name q0
                 /\ Player.x p = Player.x q0
                 /\ Player.y p = Player.y q0
                 /\ Player.angle p = Player.angle q0
                 /\ Player.teamId p = Player.teamId q0).
  assert (H : holds_of_all Q (players (fst (tick g)))).
  { apply holds_tick; unfold Q; try (intros; cbn; now auto).
    intros k' p Gp q0 G0. rewrite Gp in G0. injection G0 as <-.
    repeat split. }
  exact (H k q' G' q G).
Qed.

Lemma tick_keeps_identity_and_position_witness :
  exists q',
    Players.get "B" (players (fst (tick (fst (run gameState orphan_bullet)))))
    = Some q'
    /\ Player.id q' = "B"
    /\ Player.name q' = "bob"
    /\ Player.x q' = 1015.625%float
    /\ Player.y q' = 1000%float
    /\ Player.angle q' = 0%float
    /\ Player.teamId q' = "B".
Proof.
  apply (tick_keeps_identity_and_position (fst (run gameState orphan_bullet)) "B"
           (Player.mk "B" "bob" 1015.625 1000 20 "B" 0 false 0)).
  vm_compute. reflexivity.
Defined.

(** *** The dead take no damage *)

Lemma dead_bullet_body {M : MathLib} i g k q :
  Players.get k (players g) = Some q ->
  Player.isDead q = true ->
  exists q',
    Players.get k (players (fst (bullet_body i g))) = Some q'
    /\ Player.health q' = Player.health q
    /\ Player.isDead q' = true.
Proof.
  intros G Hd.
  destruct (bullet_body_outcome i g) as [N | b N D | b pid p N D S | b N D S];
    cbn [fst players]; eauto.
  apply scan_found in S. destruct S as (_ & Hp & Hc & _).
  apply candidate_alive in Hc.
  assert (Hne : k <> pid) by (intros ->; congruence).
  destruct (apply_hit_other (advance b) pid p (players g) k q Hne G)
    as (q' & G' & Hh & Hd').
  exists q'. rewrite Hd'. auto.
Qed.

Lemma dead_bullet_loop {M : MathLib} n : forall g k q,
  Players.get k (players g) = Some q ->
  Player.isDead q = true ->
  exists q',
    Players.get k (players (fst (bullet_loop n g))) = Some q'
    /\ Player.health q' = Player.health q
    /\ Player.isDead q' = true.
Proof.
  induction n as [|i IH]; intros g k q G Hd; simpl; eauto.
  destruct (dead_bullet_body i g k q G Hd) as (q1 & G1 & H1 & D1).
  destruct (bullet_body i g) as [g1 out1]. cbn [fst] in G1.
  destruct (IH g1 k q1 G1 D1) as (q2 & G2 & H2 & D2).
  destruct (bullet_loop i g1) as [g2 out2]. cbn [fst] in *.
  exists q2. repeat split; congruence.
Qed.

Lemma dead_zone_body {M : MathLib} z pid ps k q :
  Players.get k ps = Some q ->
  Player.isDead q = true ->
  Players.get k (fst (zone_body z pid ps)) = Some q.
Proof.
  intros G Hd. unfold zone_body.
  destruct (Players.get pid ps) as [p|] eqn:Gp; auto.
  destruct (Player.isDead p) eqn:Dp; auto. cbn [negb].
  destruct (Zone.radius z <? _)%float; auto.
  assert (Hne : pid <> k) by (intros ->; congruence).
  destruct (Player.health _ <=? 0)%float; cbn [fst];
    now rewrite get_set_other.
Qed.

Lemma dead_zone_loop {M : MathLib} z pids : forall ps k q,
  Players.get k ps = Some q ->
  Player.isDead q = true ->
  Players.get k (fst (zone_loop z pids ps)) = Some q.
Proof.
  induction pids as [|pid rest IH]; intros ps k q G Hd; simpl; auto.
  pose proof (dead_zone_body z pid ps k q G Hd) as H1.
  destruct (zone_body z pid ps) as [ps1 out1]. cbn [fst] in H1.
  specialize (IH ps1 k q H1 Hd).
  now destruct (zone_loop z rest ps1).
Qed.

Lemma dead_tick {M : MathLib} g k q :
  Players.get k (players g) = Some q ->
  Player.isDead q = true ->
  exists q',
    Players.get k (players (fst (tick g))) = Some q'
    /\ Player.health q' = Player.health q
    /\ Player.isDead q' = true.
Proof.
  intros G Hd. unfold tick.
  destruct (dead_bullet_loop (List.length (bullets g)) g k q G Hd)
    as (q1 & G1 & H1 & D1).
  destruct (bullet_loop _ g) as [g1 out1]. cbn [fst] in G1.
  pose proof (dead_zone_loop (shrink (zone g1)) (Players.keys (players g1))
                (players g1) k q1 G1 D1) as G2.
  destruct (zone_loop _ _ (players g1)). cbn [fst players] in *.
  eauto.
Qed.

(** X9. A player that is dead when a turn of the game loop starts is dead
    when it ends, with the same health: neither bullets nor the zone touch
    the dead. *)
Theorem dead_players_take_no_damage {M : MathLib} g k q :
  Players.get k (players g) = Some q ->
  Player.isDead q = true ->
  exists q',
    Players.get k (players (fst (tick g))) = Some q'
    /\ Player.health q' = Player.health q
    /\ Player.isDead q' = true.
Proof.
  exact (dead_tick g k q).
Qed.

Lemma dead_players_take_no_damage_witness :
  exists q',
    Players.get "B" (players (fst (tick (fst (run gameState last_stand)))))
    = Some q'
    /\ Player.health q' = 0%float
    /\ Player.isDead q' = true.
Proof.
  apply (dead_players_take_no_damage (fst (run gameState last_stand)) "B"
           (Player.mk "B" "bob" 1015.625 1000 0 "B" 0 true 0)).
  - vm_compute. reflexivity.
  - reflexivity.
Defined.

(** *** Kill counts *)

Lemma apply_hit_kills_bounds {M : MathLib} b pid p ps k q :
  Players.get pid ps = Some p ->
  Players.get k ps = Some q ->
  exists q',
    Players.get k (fst (apply_hit b pid p ps)) = Some q'
    /\ Player.kills q <= Player.kills q' <= S (Player.kills q).
Proof.
  intros Hp Hq. unfold apply_hit.
  assert (R : forall v, Player.kills v = Player.kills p ->
              forall ps0, Players.get k ps0 = Some q \/
                          (exists q0, Players.get k ps0 = Some q0
                                      /\ Player.kills q0 = Player.kills q) ->
              exists q', Players.get k (Players.set pid v ps0) = Some q'
                         /\ Player.kills q' = Player.kills q).
  { intros v Hv ps0 H0. rewrite get_set.
    destruct (String.eqb k pid) eqn:E.
    - apply String.eqb_eq in E. subst k. rewrite Hp in Hq.
      injection Hq as <-. eauto.
    - destruct H0 as [H0|(q0 & H0 & K0)]; eauto. }
  destruct (Player.health _ <=? 0)%float; cbn [fst].
  - destruct (R (Player.with_health p (Player.health p - 20)%float) eq_refl ps
                (or_introl Hq)) as (q1 & G1 & K1).
    destruct (R (Player.with_isDead
                   (Player.with_health p (Player.health p - 20)%float) true)
                eq_refl _ (or_intror (ex_intro _ q1 (conj G1 K1))))
      as (q2 & G2 & K2).
    destruct (Players.get (Bullet.ownerId b) _) as [killer|] eqn:K.
    + rewrite get_set.
      destruct (String.eqb k (Bullet.ownerId b)) eqn:E.
      * apply String.eqb_eq in E. subst k. rewrite G2 in K.
        injection K as <-. eexists. split; [reflexivity|]. cbn. lia.
      * exists q2. split; [exact G2 | lia].
    + exists q2. split; [exact G2 | lia].
  - destruct (R (Player.with_health p (Player.health p - 20)%float) eq_refl ps
                (or_introl Hq)) as (q1 & G1 & K1).
    exists q1. split; [exact G1 | lia].
Qed.

Lemma kills_bullet_body {M : MathLib} i g k q :
  Players.get k (players g) = Some q ->
  exists q',
    Players.get k (players (fst (bullet_body i g))) = Some q'
    /\ Player.kills q <= Player.kills q'.
Proof.
  intros G.
  destruct (bullet_body_outcome i g) as [N | b N D | b pid p N D S | b N D S];
    cbn [fst players]; eauto.
  apply scan_found in S. destruct S as (_ & Hp & _).
  destruct (apply_hit_kills_bounds (advance b) pid p (players g) k q Hp G)
    as (q' & G' & K').
  exists q'. split; [exact G' | lia].
Qed.

Lemma kills_bullet_loop {M : MathLib} n : forall g k q,
  Players.get k (players g) = Some q ->
  exists q',
    Players.get k (players (fst (bullet_loop n g))) = Some q'
    /\ Player.kills q <= Player.kills q'.
Proof.
  induction n as [|i IH]; intros g k q G; simpl; eauto.
  destruct (kills_bullet_body i g k q G) as (q1 & G1 & K1).
  destruct (bullet_body i g) as [g1 out1]. cbn [fst] in G1.
  destruct (IH g1 k q1 G1) as (q2 & G2 & K2).
  destruct (bullet_loop i g1) as [g2 out2]. cbn [fst] in *.
  exists q2. split; [exact G2 | lia].
Qed.

Lemma kills_zone_body {M : MathLib} z pid ps k q :
  Players.get k ps = Some q ->
  exists q',
    Players.get k (fst (zone_body z pid ps)) = Some q'
    /\ Player.kills q' = Player.kills q.
Proof.
  intros G. unfold zone_body.
  destruct (Players.get pid ps) as [p|] eqn:Gp; eauto.
  destruct (Player.isDead p); eauto. cbn [negb].
  destruct (Zone.radius z <? _)%float; eauto.
  destruct (Player.health _ <=? 0)%float; cbn [fst]; rewrite get_set;
    (destruct (String.eqb k pid) eqn:E;
     [apply String.eqb_eq in E; subst k; rewrite Gp in G; injection G as <-;
      eexists; split; reflexivity
     | eauto]).
Qed.

Lemma kills_zone_loop {M : MathLib} z pids : forall ps k q,
  Players.get k ps = Some q ->
  exists q',
    Players.get k (fst (zone_loop z pids ps)) = Some q'
    /\ Player.kills q' = Player.kills q.
Proof.
  induction pids as [|pid rest IH]; intros ps k q G; simpl; eauto.
  destruct (kills_zone_body z pid ps k q G) as (q1 & G1 & K1).
  destruct (zone_body z pid ps) as [ps1 out1]. cbn [fst] in G1.
  destruct (IH ps1 k q1 G1) as (q2 & G2 & K2).
  destruct (zone_loop z rest ps1) as [ps2 out2]. cbn [fst] in *.
  exists q2. split; congruence.
Qed.

(** X10. Over a turn of the game loop no kill count goes down, and when no
    bullet is in flight none changes: a player the zone eliminates is
    nobody's kill. *)
Theorem kills_never_decrease {M : MathLib} g k q :
  Players.get k (players g) = Some q ->
  exists q',
    Players.get k (players (fst (tick g))) = Some q'
    /\ Player.kills q <= Player.kills q'
    /\ (bullets g = [] -> Player.kills q' = Player.kills q).
Proof.
  intros G. unfold tick.
  destruct (kills_bullet_loop (List.length (bullets g)) g k q G)
    as (q1 & G1 & K1).
  assert (E : bullets g = [] ->
              fst (bullet_loop (List.length (bullets g)) g) = g).
  { intros Hb. now rewrite Hb. }
  destruct (bullet_loop _ g) as [g1 out1]. cbn [fst] in G1, E.
  destruct (kills_zone_loop (shrink (zone g1)) (Players.keys (players g1))
              (players g1) k q1 G1) as (q2 & G2 & K2).
  destruct (zone_loop _ _ (players g1)) as [ps out2]. cbn [fst players] in *.
  exists q2. split; [exact G2|]. split; [lia|].
  intros Hb. rewrite (E Hb) in G1. congruence.
Qed.

Lemma kills_never_decrease_witness :
  exists q',
    Players.get "A" (players (fst (tick (fst (run gameState outside_zone)))))
    = Some q'
    /\ 0 <= Player.kills q'
    /\ (bullets (fst (run gameState outside_zone)) = [] -> Player.kills q' = 0).
Proof.
  apply (kills_never_decrease (fst (run gameState outside_zone)) "A"
           (Player.mk "A" "Player" 0 0 99.5 "A" 0 false 0)).
  vm_compute. reflexivity.
Defined.

(** X11. When a bullet kills and its owner is in the store, the owner's kill
    count goes up by exactly one, no other kill count changes, and the
    elimination is announced with the victim and the owner. *)
Theorem lethal_hit_credits_owner {M : MathLib} i g b0 pid p killer :
  stored_under_own_id (players g) ->
  nth_error (bullets g) i = Some b0 ->
  (Bullet.maxDistance (advance b0) <? Bullet.distance (advance b0))%float = false ->
  scan (advance b0) (players g) (Players.keys (players g)) = Some (pid, p) ->
  (Player.health p - 20 <=? 0)%float = true ->
  Players.get (Bullet.ownerId b0) (players g) = Some killer ->
  let g' := fst (bullet_body i g) in
  (exists killer',
      Players.get (Bullet.ownerId b0) (players g') = Some killer'
      /\ Player.kills killer' = S (Player.kills killer))
  /\ (forall k q,
         k <> Bullet.ownerId b0 ->
         Players.get k (players g) = Some q ->
         exists q',
           Players.get k (players g') = Some q'
           /\ Player.kills q' = Player.kills q)
  /\ In (playerKilled pid (Bullet.ownerId b0)) (snd (bullet_body i g)).
Proof.
  intros Hid Hb Hd Hs Hl Hk g'. subst g'.
  destruct (bullet_body_outcome i g) as [N | b N D | b pid' p' N D S | b N D S];
    rewrite Hb in N; try discriminate N; injection N as <-;
    try congruence.
  rewrite Hs in S. injection S as <- <-.
  cbn [fst snd players].
  apply scan_found in Hs. destruct Hs as (_ & Hp & Hc & _).
  pose proof (Hid pid p Hp) as Hpid.
  assert (Hne : pid <> Bullet.ownerId b0).
  { unfold candidate in Hc. rewrite !andb_true_iff, !negb_true_iff in Hc.
    destruct Hc as [[Hc _] _]. apply String.eqb_neq in Hc.
    cbn [advance Bullet.ownerId] in Hc. congruence. }
  unfold apply_hit. cbn [Player.health Player.with_health]. rewrite Hl.
  cbn [advance Bullet.ownerId Bullet.id fst snd].
  rewrite !get_set_other by exact Hne. rewrite Hk.
  split; [|split].
  - rewrite get_set_same. eexists. split; reflexivity.
  - intros k q Hkne Hq.
    rewrite get_set_other by congruence.
    rewrite !get_set.
    destruct (String.eqb k pid) eqn:E; eauto.
    apply String.eqb_eq in E. subst k. rewrite Hp in Hq. injection Hq as <-.
    eexists. split; reflexivity.
  - rewrite Hpid. simpl. auto.
Qed.

Lemma lethal_hit_credits_owner_witness :
  let g := fst (run gameState fifth_shot) in
  exists killer',
    Players.get "A" (players (fst (bullet_body 0 g))) = Some killer'
    /\ Player.kills killer' = 1.
Proof.
  intros g.
  assert (Hid : stored_under_own_id (players g)).
  { apply own_id_reachable. apply run_reachable. constructor. }
  pose (b0 := Bullet.mk "b5" "A" "A" 1000 1000 0 15 0 600).
  pose (p := Player.mk "B" "bob" 1015.625 1000 20 "B" 0 false 0).
  pose (killer := Player.mk "A" "Player" 1000 1000 100 "A" 0 false 0).
  assert (H1 : nth_error (bullets g) 0 = Some b0) by (vm_compute; reflexivity).
  assert (H2 : (Bullet.maxDistance (advance b0) <? Bullet.distance (advance b0))%float
               = false) by (vm_compute; reflexivity).
  assert (H3 : scan (advance b0) (players g) (Players.keys (players g))
               = Some ("B", p)) by (vm_compute; reflexivity).
  assert (H4 : (Player.health p - 20 <=? 0)%float = true) by (vm_compute; reflexivity).
  assert (H5 : Players.get (Bullet.ownerId b0) (players g) = Some killer)
    by (vm_compute; reflexivity).
  exact (proj1 (lethal_hit_credits_owner 0 g b0 "B" p killer Hid H1 H2 H3 H4 H5)).
Defined.

(** ** The life of a bullet *)

Lemma forallb_below (P : nat -> bool) n :
  forallb P (seq 0 (S n)) = true -> forall k, k <= n -> P k = true.
Proof.
  intros H k Hk. rewrite forallb_forall in H. apply H.
  apply in_seq. lia.
Qed.

Lemma flown_within_range k : k <= 40 -> (flown k <=? 600)%float = true.
Proof.
  apply (forallb_below (fun k => (flown k <=? 600)%float) 40).
  vm_compute. reflexivity.
Qed.

Lemma flown_not_retired k : k <= 40 -> (600 <? flown k)%float = false.
Proof.
  intros Hk.
  apply (forallb_below (fun k => negb (600 <? flown k)%float) 40) in Hk.
  - now apply negb_true_iff in Hk.
  - vm_compute. reflexivity.
Qed.

Lemma in_flight_advance {M : MathLib} a b :
  in_flight a b ->
  retired (advance b) = false ->
  in_flight (S a) (advance b).
Proof.
  intros (Hs & Hm & k & Hk & Hd) Hr.
  unfold retired in Hr. cbn [advance Bullet.maxDistance Bullet.distance] in Hr.
  rewrite Hs, Hm, Hd in Hr.
  repeat split; auto.
  exists (S k). cbn [advance Bullet.distance]. rewrite Hs, Hd.
  split; [|reflexivity].
  assert (k <> 40).
  { intros ->. revert Hr. vm_compute. discriminate. }
  lia.
Qed.

Lemma in_flight_younger a a' b : a' <= a -> in_flight a b -> in_flight a' b.
Proof.
  intros Ha (Hs & Hm & k & Hk & Hd). repeat split; auto.
  exists k. split; [lia | exact Hd].
Qed.

(** The bullets a turn of the loop keeps are advanced, unretired bullets of
    the array it started from. *)
Lemma bullet_body_kept {M : MathLib} g pre b0 post :
  bullets g = pre ++ b0 :: post ->
  exists mid,
    bullets (fst (bullet_body (List.length pre) g)) = pre ++ mid ++ post
    /\ Forall (fun b => b = advance b0 /\ retired b = false) mid.
Proof.
  intros Hb.
  destruct (bullet_body_outcome (List.length pre) g)
    as [N | b N D | b pid p N D S | b N D S];
    rewrite Hb, nth_error_middle in N; try discriminate N; injection N as <-;
    cbn [fst bullets]; rewrite Hb.
  - exists []. rewrite splice1_middle. split; [reflexivity | constructor].
  - exists []. rewrite splice1_middle. split; [reflexivity | constructor].
  - exists [advance b0]. rewrite store_at_middle. split; [reflexivity|].
    repeat constructor. exact D.
Qed.

Lemma bullet_loop_kept {M : MathLib} n : forall g pre post,
  bullets g = pre ++ post ->
  List.length pre = n ->
  exists kept,
    bullets (fst (bullet_loop n g)) = kept ++ post
    /\ Forall (fun b => exists b0,
                   In b0 pre /\ b = advance b0 /\ retired b = false) kept.
Proof.
  induction n as [|i IH]; intros g pre post Hb Hlen.
  - destruct pre; [|discriminate]. exists []. split; [exact Hb | constructor].
  - destruct (exists_last (l := pre)) as (pre' & b0 & ->);
      [intros ->; discriminate|].
    rewrite length_app in Hlen. simpl in Hlen.
    assert (Hi : List.length pre' = i) by lia. subst i.
    rewrite <- app_assoc in Hb. simpl in Hb.
    destruct (bullet_body_kept g pre' b0 post Hb) as (mid & Hb1 & Hm).
    simpl. destruct (bullet_body (List.length pre') g) as [g1 out1].
    cbn [fst] in Hb1.
    destruct (IH g1 pre' (mid ++ post) Hb1 eq_refl) as (kept & Hb2 & Hk).
    destruct (bullet_loop (List.length pre') g1) as [g2 out2].
    cbn [fst] in *.
    exists (kept ++ mid). split; [now rewrite <- app_assoc|].
    apply Forall_app. split.
    + eapply Forall_impl; [|exact Hk].
      intros b (b1 & Hin & Hrest). exists b1. split; [|exact Hrest].
      apply in_or_app. now left.
    + eapply Forall_impl; [|exact Hm].
      intros b Hrest. exists b0. split; [|exact Hrest].
      apply in_or_app. right. simpl. now left.
Qed.

Lemma tick_kept {M : MathLib} g b :
  In b (bullets (fst (tick g))) ->
  exists b0, In b0 (bullets g) /\ b = advance b0 /\ retired b = false.
Proof.
  unfold tick.
  destruct (bullet_loop_kept (List.length (bullets g)) g (bullets g) []
              (eq_sym (app_nil_r _)) eq_refl) as (kept & Hb & Hk).
  destruct (bullet_loop _ g) as [g1 out1]. cbn [fst] in Hb.
  destruct (zone_loop _ _ (players g1)) as [ps out2]. cbn [fst bullets].
  rewrite Hb, app_nil_r. intros Hin.
  rewrite Forall_forall in Hk. now apply Hk.
Qed.

Lemma in_flight_tick {M : MathLib} a g :
  Forall (in_flight a) (bullets g) ->
  Forall (in_flight (S a)) (bullets (fst (tick g))).
Proof.
  intros H. apply Forall_forall. intros b Hin.
  destruct (tick_kept g b Hin) as (b0 & Hin0 & -> & Hr).
  rewrite Forall_forall in H. now apply in_flight_advance; auto.
Qed.

Lemma in_flight_step {M : MathLib} g i :
  Forall (in_flight 0) (bullets g) ->
  Forall (in_flight 0) (bullets (fst (step g i))).
Proof.
  intros H. destruct i as [sid name mode rx ry | sid x y a | sid nid | sid |];
    cbn [step]; auto.
  - unfold on_move. destruct (Players.get sid (players g)) as [p|]; auto.
    now destruct (Player.isDead p).
  - unfold on_shoot. destruct (Players.get sid (players g)) as [p|]; auto.
    destruct (Player.isDead p); auto. cbn [negb fst bullets].
    apply Forall_app. split; auto.
    repeat constructor. exists 0. split; [lia | reflexivity].
  - eapply Forall_impl; [|apply in_flight_tick; exact H].
    intros b. apply in_flight_younger. lia.
Qed.

Lemma in_flight_reachable {M : MathLib} g :
  reachable g -> Forall (in_flight 0) (bullets g).
Proof.
  induction 1 as [|g i _ IH]; [constructor | now apply in_flight_step].
Qed.

(** X12. Every bullet of a state the server can reach has the speed 15 and
    the range 600 that [shoot] gave it, and has covered [15 * k] for some
    [k] from 0 to 40, which is within its range: a bullet past its range is
    never left in the array. *)
Theorem bullets_stay_within_range {M : MathLib} g b :
  reachable g ->
  In b (bullets g) ->
  Bullet.speed b = 15%float
  /\ Bullet.maxDistance b = 600%float
  /\ (exists k, k <= 40 /\ Bullet.distance b = flown k)
  /\ (Bullet.distance b <=? Bullet.maxDistance b)%float = true.
Proof.
  intros Hr Hin.
  pose proof (in_flight_reachable g Hr) as H.
  rewrite Forall_forall in H.
  destruct (H b Hin) as (Hs & Hm & k & Hk & Hd).
  repeat split; auto.
  - exists k. split; [lia | exact Hd].
  - rewrite Hm, Hd. apply flown_within_range. lia.
Qed.

Lemma bullets_stay_within_range_witness :
  Bullet.speed (Bullet.mk "b5" "A" "A" 1000 1000 0 15 0 600) = 15%float
  /\ Bullet.maxDistance (Bullet.mk "b5" "A" "A" 1000 1000 0 15 0 600) = 600%float
  /\ (exists k,
         k <= 40
         /\ Bullet.distance (Bullet.mk "b5" "A" "A" 1000 1000 0 15 0 600) = flown k)
  /\ (Bullet.distance (Bullet.mk "b5" "A" "A" 1000 1000 0 15 0 600)
      <=? Bullet.maxDistance (Bullet.mk "b5" "A" "A" 1000 1000 0 15 0 600))%float
     = true.
Proof.
  apply (bullets_stay_within_range (fst (run gameState fifth_shot))).
  - apply run_reachable. constructor.
  - vm_compute. auto.
Defined.

Lemma in_flight_run {M : MathLib} ins : forall a g,
  shoot_ids ins = [] ->
  Forall (in_flight a) (bullets g) ->
  Forall (in_flight (a + ticks ins)) (bullets (fst (run g ins))).
Proof.
  induction ins as [|i rest IH]; intros a g Hs H.
  - simpl. now rewrite Nat.add_0_r.
  - simpl run.
    assert (H1 : Forall (in_flight (a + ticks [i])) (bullets (fst (step g i)))
                 /\ shoot_ids rest = []).
    { destruct i as [sid name mode rx ry | sid x y ang | sid nid | sid |];
        try discriminate Hs; cbn [step ticks shoot_ids] in *;
        rewrite ?Nat.add_0_r; split; auto.
      - unfold on_move. destruct (Players.get sid (players g)) as [p|]; auto.
        now destruct (Player.isDead p).
      - rewrite Nat.add_1_r. now apply in_flight_tick. }
    destruct H1 as [H1 Hs'].
    destruct (step g i) as [g1 out1]. cbn [fst] in H1.
    specialize (IH _ g1 Hs' H1).
    destruct (run g1 rest) as [g2 out2]. cbn [fst] in *.
    replace (a + ticks (i :: rest)) with (a + ticks [i] + ticks rest); auto.
    destruct i; simpl; lia.
Qed.

(** X13. From a state the server can reach, 41 turns of the game loop with
    no shot in between leave no bullet: whatever a bullet meets, it is gone
    after 41 turns. *)
Theorem bullets_are_gone_after_41_ticks {M : MathLib} g ins :
  reachable g ->
  shoot_ids ins = [] ->
  41 <= ticks ins ->
  bullets (fst (run g ins)) = [].
Proof.
  intros Hr Hs Ht.
  pose proof (in_flight_run ins 0 g Hs (in_flight_reachable g Hr)) as H.
  destruct (bullets (fst (run g ins))) as [|b rest]; auto.
  apply Forall_inv in H. destruct H as (_ & _ & k & Hk & _).
  simpl in Hk. lia.
Qed.

Lemma bullets_are_gone_after_41_ticks_witness :
  bullets (fst (run (fst (run gameState [join "A" "" "solo" 0.5 0.5; shoot "A" "b1"]))
                  (repeat tock 41)))
  = [].
Proof.
  apply bullets_are_gone_after_41_ticks.
  - apply run_reachable. constructor.
  - reflexivity.
  - reflexivity.
Defined.

(** ** The zone, in every reachable state *)

Lemma shrink_keeps_centre z :
  Zone.x (shrink z) = Zone.x z
  /\ Zone.y (shrink z) = Zone.y z
  /\ Zone.targetRadius (shrink z) = Zone.targetRadius z.
Proof.
  unfold shrink. now destruct (50 <? Zone.radius z)%float.
Qed.

Lemma iter_shrink_keeps_centre n z :
  Zone.x (Nat.iter n shrink z) = Zone.x z
  /\ Zone.y (Nat.iter n shrink z) = Zone.y z
  /\ Zone.targetRadius (Nat.iter n shrink z) = Zone.targetRadius z.
Proof.
  induction n as [|n (Hx & Hy & Ht)]; simpl; auto.
  destruct (shrink_keeps_centre (Nat.iter n shrink z)) as (Hx' & Hy' & Ht').
  repeat split; congruence.
Qed.

(** X14. In every state the server can reach the zone is centred on the
    middle of the map, its target radius is the initial 1200, and its radius
    lies between 49.999999999996184, where it settles, and 1200. *)
Theorem zone_stays_centred_and_bounded {M : MathLib} g :
  reachable g ->
  Zone.x (zone g) = 1000%float
  /\ Zone.y (zone g) = 1000%float
  /\ Zone.targetRadius (zone g) = 1200%float
  /\ (49.999999999996184 <=? Zone.radius (zone g))%float = true
  /\ (Zone.radius (zone g) <=? 1200)%float = true.
Proof.
  intros Hr. destruct (reachable_zone g Hr) as [n ->].
  destruct (iter_shrink_keeps_centre n (zone gameState)) as (Hx & Hy & Ht).
  assert (Hb : radius_in_bounds (Nat.iter n shrink (zone gameState)) = true).
  { apply (orbit_of_start radius_in_bounds n). vm_compute. reflexivity. }
  apply andb_true_iff in Hb. destruct Hb as [Hlo Hhi].
  rewrite Hx, Hy, Ht. repeat split; auto.
Qed.

Lemma zone_stays_centred_and_bounded_witness :
  let g := fst (run gameState last_stand) in
  Zone.x (zone g) = 1000%float
  /\ Zone.y (zone g) = 1000%float
  /\ Zone.targetRadius (zone g) = 1200%float
  /\ (49.999999999996184 <=? Zone.radius (zone g))%float = true
  /\ (Zone.radius (zone g) <=? 1200)%float = true.
Proof.
  intros g. apply (zone_stays_centred_and_bounded g).
  apply run_reachable. constructor.
Defined.

(** ** Zone damage *)

Lemma nodup_keys_step {M : MathLib} g i :
  NoDup (Players.keys (players g)) ->
  NoDup (Players.keys (players (fst (step g i)))).
Proof.
  intros H. destruct i as [sid name mode rx ry | sid x y a | sid nid | sid |];
    cbn [step].
  - unfold on_join. cbn [fst players]. now apply nodup_keys_set.
  - unfold on_move. destruct (Players.get sid (players g)) as [p|]; auto.
    destruct (Player.isDead p); cbn [negb fst players]; auto.
    now apply nodup_keys_set.
  - unfold on_shoot. destruct (Players.get sid (players g)) as [p|]; auto.
    now destruct (Player.isDead p).
  - unfold on_disconnect. cbn [fst players]. now apply nodup_keys_delete.
  - now rewrite tick_keys.
Qed.

Lemma nodup_keys_reachable {M : MathLib} g :
  reachable g -> NoDup (Players.keys (players g)).
Proof.
  induction 1 as [|g i _ IH]; [constructor | now apply nodup_keys_step].
Qed.

Lemma zone_body_get {M : MathLib} z pid ps k :
  Players.get k (fst (zone_body z pid ps))
  = if String.eqb k pid
    then option_map (zone_effect z) (Players.get k ps)
    else Players.get k ps.
Proof.
  unfold zone_body, zone_effect.
  destruct (String.eqb k pid) eqn:E.
  - apply String.eqb_eq in E. subst k.
    destruct (Players.get pid ps) as [p|] eqn:G; cbn [option_map fst]; auto.
    destruct (Player.isDead p); cbn [negb andb fst]; auto.
    destruct (Zone.radius z <? _)%float; cbn [fst]; auto.
    destruct (Player.health _ <=? 0)%float; cbn [fst]; apply get_set_same.
  - apply String.eqb_neq in E.
    destruct (Players.get pid ps) as [p|] eqn:G; cbn [fst]; auto.
    destruct (Player.isDead p); cbn [negb fst]; auto.
    destruct (Zone.radius z <? _)%float; cbn [fst]; auto.
    destruct (Player.health _ <=? 0)%float; cbn [fst];
      apply get_set_other; congruence.
Qed.

Lemma zone_loop_get {M : MathLib} z pids : forall ps k,
  NoDup pids ->
  Players.get k (fst (zone_loop z pids ps))
  = if in_dec string_dec k pids
    then option_map (zone_effect z) (Players.get k ps)
    else Players.get k ps.
Proof.
  induction pids as [|pid rest IH]; intros ps k Hnd; [reflexivity|].
  apply NoDup_cons_iff in Hnd. destruct Hnd as [Hnot Hnd].
  simpl zone_loop.
  pose proof (zone_body_get z pid ps k) as H1.
  destruct (zone_body z pid ps) as [ps1 out1]. cbn [fst] in H1.
  specialize (IH ps1 k Hnd).
  destruct (zone_loop z rest ps1) as [ps2 out2]. cbn [fst] in *.
  rewrite IH, H1.
  destruct (String.eqb k pid) eqn:E.
  - apply String.eqb_eq in E. subst k.
    destruct (in_dec string_dec pid rest) as [|_]; [contradiction|].
    destruct (in_dec string_dec pid (pid :: rest)) as [|Hn]; auto.
    exfalso. apply Hn. simpl. auto.
  - apply String.eqb_neq in E.
    destruct (in_dec string_dec k rest) as [i|n];
      destruct (in_dec string_dec k (pid :: rest)) as [i'|n']; auto.
    + exfalso. apply n'. simpl. auto.
    + destruct i' as [->|]; [congruence | contradiction].
Qed.

(** X15. After the bullets, a turn of the game loop treats the players one
    by one and each on its own: with the radius already shrunk for this
    turn, a living player farther from the centre than the radius loses 0.5
    health, and is marked dead if that leaves it at zero or below; every
    other player is left as the bullets left it. *)
Theorem zone_damage_is_per_player {M : MathLib} g k :
  reachable g ->
  Players.get k (players (fst (tick g)))
  = option_map (zone_effect (shrink (zone g)))
      (Players.get k (players (fst (bullet_loop (List.length (bullets g)) g)))).
Proof.
  intros Hr. unfold tick.
  pose proof (nodup_keys_reachable g Hr) as Hnd.
  rewrite <- (bullet_loop_keys (List.length (bullets g)) g) in Hnd.
  pose proof (zone_bullet_loop (List.length (bullets g)) g) as Hz.
  destruct (bullet_loop _ g) as [g1 out1]. cbn [fst] in *.
  pose proof (zone_loop_get (shrink (zone g1)) (Players.keys (players g1))
                (players g1) k Hnd) as H.
  destruct (zone_loop _ _ (players g1)) as [ps out2]. cbn [fst players] in *.
  rewrite H, Hz.
  destruct (in_dec string_dec k (Players.keys (players g1))) as [i|n]; auto.
  destruct (Players.get k (players g1)) as [p|] eqn:G; auto.
  exfalso. apply n. now apply get_in_keys with p.
Qed.

Lemma zone_damage_is_per_player_witness :
  Players.get "A" (players (fst (run gameState outside_zone)))
  = Some (Player.mk "A" "Player" 0 0 99.5 "A" 0 false 0)
  /\ Players.get "A" (players (fst (tick (fst (run gameState outside_zone)))))
     = Some (Player.mk "A" "Player" 0 0 99 "A" 0 false 0).
Proof.
  split; [vm_compute; reflexivity|].
  rewrite (zone_damage_is_per_player (fst (run gameState outside_zone)) "A").
  - vm_compute. reflexivity.
  - apply run_reachable. constructor.
Defined.

(** ** Eliminations and their announcement *)

Lemma apply_hit_out {M : MathLib} b pid p ps :
  snd (apply_hit b pid p ps)
  = if (Player.health p - 20 <=? 0)%float
    then [hit (Bullet.id b) pid; playerKilled (Player.id p) (Bullet.ownerId b)]
    else [hit (Bullet.id b) pid].
Proof.
  unfold apply_hit. cbn [Player.health Player.with_health].
  now destruct (Player.health p - 20 <=? 0)%float.
Qed.

Lemma zone_body_out {M : MathLib} z pid ps v killer :
  In (playerKilled v killer) (snd (zone_body z pid ps)) ->
  exists p,
    Players.get pid ps = Some p
    /\ v = Player.id p
    /\ Players.get pid (fst (zone_body z pid ps))
       = Some (Player.with_isDead
                 (Player.with_health p (Player.health p - 0.5)%float) true).
Proof.
  unfold zone_body.
  destruct (Players.get pid ps) as [p|] eqn:G; [|intros []].
  destruct (Player.isDead p); [intros []|]. cbn [negb].
  destruct (Zone.radius z <? _)%float; [|intros []].
  destruct (Player.health _ <=? 0)%float; cbn [fst snd]; [|intros []].
  intros [H|[]]. injection H as <- _.
  exists p. rewrite get_set_same. auto.
Qed.

Lemma announced_bullet_body {M : MathLib} i g v killer :
  stored_under_own_id (players g) ->
  In (playerKilled v killer) (snd (bullet_body i g)) ->
  exists p,
    Players.get v (players (fst (bullet_body i g))) = Some p
    /\ Player.isDead p = true.
Proof.
  intros Hid.
  destruct (bullet_body_outcome i g) as [N | b N D | b pid p N D S | b N D S];
    cbn [fst snd players]; try (intros []).
  apply scan_found in S. destruct S as (_ & Hp & _).
  rewrite apply_hit_out.
  destruct (Player.health p - 20 <=? 0)%float eqn:L.
  - intros [H|[H|[]]]; [discriminate H|]. injection H as <- _.
    rewrite (Hid pid p Hp).
    destruct (apply_hit_victim (advance b) pid p (players g))
      as (p' & G & _ & Dd).
    exists p'. rewrite L, orb_true_r in Dd. auto.
  - intros [H|[]]. discriminate H.
Qed.

Lemma announced_bullet_loop {M : MathLib} n : forall g v killer,
  stored_under_own_id (players g) ->
  In (playerKilled v killer) (snd (bullet_loop n g)) ->
  exists p,
    Players.get v (players (fst (bullet_loop n g))) = Some p
    /\ Player.isDead p = true.
Proof.
  induction n as [|i IH]; intros g v killer Hid; simpl; [intros []|].
  pose proof (announced_bullet_body i g v killer Hid) as H1.
  pose proof (holds_bullet_body (fun k p => Player.id p = k)
                ltac:(auto) ltac:(auto) ltac:(auto) i g Hid) as Hid1.
  destruct (bullet_body i g) as [g1 out1]. cbn [fst snd] in H1, Hid1.
  specialize (IH g1 v killer Hid1).
  pose proof (dead_bullet_loop i g1 v) as Hkeep.
  destruct (bullet_loop i g1) as [g2 out2]. cbn [fst snd] in *.
  intros Hin. apply in_app_or in Hin. destruct Hin as [Hin|Hin]; auto.
  destruct (H1 Hin) as (p & G & Dd).
  destruct (Hkeep p G Dd) as (p' & G' & _ & Dd'). eauto.
Qed.

Lemma announced_zone_loop {M : MathLib} z pids : forall ps v killer,
  stored_under_own_id ps ->
  In (playerKilled v killer) (snd (zone_loop z pids ps)) ->
  exists p,
    Players.get v (fst (zone_loop z pids ps)) = Some p
    /\ Player.isDead p = true.
Proof.
  induction pids as [|pid rest IH]; intros ps v killer Hid; simpl; [intros []|].
  pose proof (zone_body_out z pid ps v killer) as H1.
  pose proof (holds_zone_body (fun k p => Player.id p = k)
                ltac:(auto) ltac:(auto) z pid ps Hid) as Hid1.
  destruct (zone_body z pid ps) as [ps1 out1]. cbn [fst snd] in H1, Hid1.
  specialize (IH ps1 v killer Hid1).
  pose proof (dead_zone_loop z rest ps1 v) as Hkeep.
  destruct (zone_loop z rest ps1) as [ps2 out2]. cbn [fst snd] in *.
  intros Hin. apply in_app_or in Hin. destruct Hin as [Hin|Hin]; auto.
  destruct (H1 Hin) as (p & G & -> & G1).
  rewrite (Hid pid p G) in *.
  eexists. split; [apply Hkeep; [exact G1 | reflexivity] | reflexivity].
Qed.

Lemma announced_tick {M : MathLib} g v killer :
  stored_under_own_id (players g) ->
  In (playerKilled v killer) (snd (tick g)) ->
  exists p,
    Players.get v (players (fst (tick g))) = Some p /\ Player.isDead p = true.
Proof.
  intros Hid. unfold tick.
  pose proof (announced_bullet_loop (List.length (bullets g)) g v killer Hid) as H1.
  pose proof (holds_bullet_loop (fun k p => Player.id p = k)
                ltac:(auto) ltac:(auto) ltac:(auto)
                (List.length (bullets g)) g Hid) as Hid1.
  destruct (bullet_loop _ g) as [g1 out1]. cbn [fst snd] in H1, Hid1.
  pose proof (announced_zone_loop (shrink (zone g1)) (Players.keys (players g1))
                (players g1) v killer Hid1) as H2.
  pose proof (dead_zone_loop (shrink (zone g1)) (Players.keys (players g1))
                (players g1) v) as Hkeep.
  destruct (zone_loop _ _ (players g1)) as [ps out2]. cbn [fst snd players] in *.
  intros Hin. apply in_app_or in Hin. destruct Hin as [Hin|Hin].
  - destruct (H1 Hin) as (p & G & Dd). exists p. split; auto.
  - apply in_app_or in Hin. destruct Hin as [Hin|[Hin|[]]]; auto.
    discriminate Hin.
Qed.

Lemma silent_bullet_body {M : MathLib} i g k q :
  stored_under_own_id (players g) ->
  Players.get k (players g) = Some q ->
  Player.isDead q = false ->
  exists q',
    Players.get k (players (fst (bullet_body i g))) = Some q'
    /\ (Player.isDead q' = true ->
        exists killer, In (playerKilled k killer) (snd (bullet_body i g))).
Proof.
  intros Hid G Ha.
  destruct (bullet_body_outcome i g) as [N | b N D | b pid p N D S | b N D S];
    cbn [fst snd players];
    try (exists q; split; [exact G | congruence]).
  apply scan_found in S. destruct S as (_ & Hp & _).
  destruct (String.eqb k pid) eqn:E.
  - apply String.eqb_eq in E. subst k. rewrite Hp in G. injection G as ->.
    destruct (apply_hit_victim (advance b) pid q (players g))
      as (q' & G' & _ & Dd).
    exists q'. split; [exact G'|]. rewrite Dd, Ha, apply_hit_out. cbn [orb].
    intros ->. exists (Bullet.ownerId (advance b)).
    rewrite (Hid pid q Hp). simpl. auto.
  - apply String.eqb_neq in E.
    destruct (apply_hit_other (advance b) pid p (players g) k q E G)
      as (q' & G' & _ & Dd).
    exists q'. split; [exact G' | congruence].
Qed.

Lemma silent_bullet_loop {M : MathLib} n : forall g k q,
  stored_under_own_id (players g) ->
  Players.get k (players g) = Some q ->
  Player.isDead q = false ->
  exists q',
    Players.get k (players (fst (bullet_loop n g))) = Some q'
    /\ (Player.isDead q' = true ->
        exists killer, In (playerKilled k killer) (snd (bullet_loop n g))).
Proof.
  induction n as [|i IH]; intros g k q Hid G Ha; simpl.
  - exists q. split; [exact G | congruence].
  - destruct (silent_bullet_body i g k q Hid G Ha) as (q1 & G1 & E1).
    pose proof (holds_bullet_body (fun k p => Player.id p = k)
                  ltac:(auto) ltac:(auto) ltac:(auto) i g Hid) as Hid1.
    pose proof (dead_bullet_loop i (fst (bullet_body i g)) k q1 G1) as Hkeep.
    destruct (bullet_body i g) as [g1 out1]. cbn [fst snd] in *.
    specialize (IH g1 k q1 Hid1 G1).
    destruct (bullet_loop i g1) as [g2 out2]. cbn [fst snd] in *.
    destruct (Player.isDead q1) eqn:D1.
    + destruct (Hkeep eq_refl) as (q2 & G2 & _).
      exists q2. split; [exact G2|]. intros _.
      destruct (E1 eq_refl) as [killer Hin]. exists killer.
      apply in_or_app. now left.
    + destruct (IH eq_refl) as (q2 & G2 & E2).
      exists q2. split; [exact G2|]. intros Hd.
      destruct (E2 Hd) as [killer Hin]. exists killer.
      apply in_or_app. now right.
Qed.

Lemma silent_zone_body {M : MathLib} z pid ps k q :
  stored_under_own_id ps ->
  Players.get k ps = Some q ->
  Player.isDead q = false ->
  exists q',
    Players.get k (fst (zone_body z pid ps)) = Some q'
    /\ (Player.isDead q' = true ->
        exists killer, In (playerKilled k killer) (snd (zone_body z pid ps))).
Proof.
  intros Hid G Ha. unfold zone_body.
  destruct (Players.get pid ps) as [p|] eqn:Gp;
    [|exists q; split; [exact G | congruence]].
  destruct (Player.isDead p) eqn:Dp; cbn [negb];
    [exists q; split; [exact G | congruence]|].
  destruct (Zone.radius z <? _)%float;
    [|exists q; split; [exact G | congruence]].
  destruct (Player.health _ <=? 0)%float; cbn [fst snd]; rewrite get_set;
    destruct (String.eqb k pid) eqn:E;
    try (exists q; split; [exact G | congruence]).
  - apply String.eqb_eq in E. subst k. eexists. split; [reflexivity|].
    intros _. exists "ZONE". cbn. rewrite (Hid pid p Gp). auto.
  - apply String.eqb_eq in E. subst k. rewrite Gp in G. injection G as ->.
    eexists. split; [reflexivity|]. cbn. congruence.
Qed.

Lemma silent_zone_loop {M : MathLib} z pids : forall ps k q,
  stored_under_own_id ps ->
  Players.get k ps = Some q ->
  Player.isDead q = false ->
  exists q',
    Players.get k (fst (zone_loop z pids ps)) = Some q'
    /\ (Player.isDead q' = true ->
        exists killer, In (playerKilled k killer) (snd (zone_loop z pids ps))).
Proof.
  induction pids as [|pid rest IH]; intros ps k q Hid G Ha; simpl.
  - exists q. split; [exact G | congruence].
  - destruct (silent_zone_body z pid ps k q Hid G Ha) as (q1 & G1 & E1).
    pose proof (holds_zone_body (fun k p => Player.id p = k)
                  ltac:(auto) ltac:(auto) z pid ps Hid) as Hid1.
    pose proof (dead_zone_loop z rest (fst (zone_body z pid ps)) k q1 G1) as Hkeep.
    destruct (zone_body z pid ps) as [ps1 out1]. cbn [fst snd] in *.
    specialize (IH ps1 k q1 Hid1 G1).
    destruct (zone_loop z rest ps1) as [ps2 out2]. cbn [fst snd] in *.
    destruct (Player.isDead q1) eqn:D1.
    + exists q1. split; [now apply Hkeep|]. intros _.
      destruct (E1 eq_refl) as [killer Hin]. exists killer.
      apply in_or_app. now left.
    + destruct (IH eq_refl) as (q2 & G2 & E2).
      exists q2. split; [exact G2|]. intros Hd.
      destruct (E2 Hd) as [killer Hin]. exists killer.
      apply in_or_app. now right.
Qed.

(** X16. A player alive when a turn of the game loop starts is dead when it
    ends exactly when the turn announces its elimination: no death goes
    unannounced, and nobody is announced dead who is not. *)
Theorem deaths_are_announced {M : MathLib} g k q :
  reachable g ->
  Players.get k (players g) = Some q ->
  Player.isDead q = false ->
  exists q',
    Players.get k (players (fst (tick g))) = Some q'
    /\ (Player.isDead q' = true
        <-> exists killer, In (playerKilled k killer) (snd (tick g))).
Proof.
  intros Hr G Ha.
  pose proof (own_id_reachable g Hr) as Hid.
  assert (Hsome : exists q',
             Players.get k (players (fst (tick g))) = Some q'
             /\ (Player.isDead q' = true ->
                 exists killer, In (playerKilled k killer) (snd (tick g)))).
  { unfold tick.
    destruct (silent_bullet_loop (List.length (bullets g)) g k q Hid G Ha)
      as (q1 & G1 & E1).
    pose proof (holds_bullet_loop (fun k p => Player.id p = k)
                  ltac:(auto) ltac:(auto) ltac:(auto)
                  (List.length (bullets g)) g Hid) as Hid1.
    destruct (bullet_loop _ g) as [g1 out1]. cbn [fst snd] in *.
    pose proof (silent_zone_loop (shrink (zone g1)) (Players.keys (players g1))
                  (players g1) k q1 Hid1 G1) as H2.
    pose proof (dead_zone_loop (shrink (zone g1)) (Players.keys (players g1))
                  (players g1) k q1 G1) as Hkeep.
    destruct (zone_loop _ _ (players g1)) as [ps out2].
    cbn [fst snd players] in *.
    destruct (Player.isDead q1) eqn:D1.
    - exists q1. split; [now apply Hkeep|]. intros _.
      destruct (E1 eq_refl) as [killer Hin]. exists killer.
      apply in_or_app. now left.
    - destruct (H2 eq_refl) as (q2 & G2 & E2).
      exists q2. split; [exact G2|]. intros Hd.
      destruct (E2 Hd) as [killer Hin]. exists killer.
      apply in_or_app. right. apply in_or_app. now left. }
  destruct Hsome as (q' & G' & E'). exists q'. split; [exact G'|].
  split; [exact E'|].
  intros [killer Hin].
  destruct (announced_tick g k killer Hid Hin) as (p & Gp & Dp).
  congruence.
Qed.

Lemma deaths_are_announced_witness :
  let g := fst (run gameState fifth_shot) in
  exists q',
    Players.get "B" (players (fst (tick g))) = Some q'
    /\ (Player.isDead q' = true
        <-> exists killer, In (playerKilled "B" killer) (snd (tick g))).
Proof.
  intros g.
  apply (deaths_are_announced g "B"
           (Player.mk "B" "bob" 1015.625 1000 20 "B" 0 false 0)).
  - apply run_reachable. constructor.
  - vm_compute. reflexivity.
  - reflexivity.
Defined.

(** ** Who a bullet hits *)

(** X17. The collision loop picks the first player, in the order the players
    joined, that passes the test: every key before the one it returns names
    a player the bullet does not hit, and it returns nothing exactly when
    no player passes. *)
Theorem scan_picks_the_first {M : MathLib} b ps pids :
  match scan b ps pids with
  | Some (pid, p) =>
      exists before after,
        pids = before ++ pid :: after
        /\ Players.get pid ps = Some p
        /\ qualifies b p = true
        /\ forall k q,
             In k before -> Players.get k ps = Some q -> qualifies b q = false
  | None =>
      forall k q, In k pids -> Players.get k ps = Some q -> qualifies b q = false
  end.
Proof.
  induction pids as [|k0 rest IH]; simpl.
  - intros k q [].
  - destruct (Players.get k0 ps) as [q0|] eqn:G0.
    + fold (qualifies b q0). destruct (qualifies b q0) eqn:Q0.
      * exists [], rest. repeat split; auto. intros k q [].
      * destruct (scan b ps rest) as [[pid p]|].
        -- destruct IH as (before & after & -> & Gp & Qp & Hb).
           exists (k0 :: before), after. repeat split; auto.
           intros k q [<-|Hin] Gk; [congruence | eauto].
        -- intros k q [<-|Hin] Gk; [congruence | eauto].
    + destruct (scan b ps rest) as [[pid p]|].
      * destruct IH as (before & after & -> & Gp & Qp & Hb).
        exists (k0 :: before), after. repeat split; auto.
        intros k q [<-|Hin] Gk; [congruence | eauto].
      * intros k q [<-|Hin] Gk; [congruence | eauto].
Qed.

(** ** Teams by arrival *)

Lemma team_of_not_solo sid mode ps :
  String.eqb mode "solo" = false ->
  team_of sid mode ps = team_name mode (List.length (Players.keys ps)).
Proof.
  intros H. unfold team_of, team_name. now rewrite H.
Qed.

Lemma join_each_keeps mode js : forall g sid,
  ~ In sid (map j_sid js) ->
  Players.get sid (players (join_each mode js g)) = Players.get sid (players g).
Proof.
  induction js as [|j rest IH]; intros g sid Hn; [reflexivity|].
  simpl in Hn. cbn [join_each fold_left].
  change (fold_left _ rest ?g0) with (join_each mode rest g0).
  rewrite IH by tauto. rewrite get_after_join.
  destruct (String.eqb sid (j_sid j)) eqn:E; auto.
  apply String.eqb_eq in E. subst. tauto.
Qed.

(** X18. In duo, squad or any mode that is not solo, the team of a new
    player depends on how many players the store holds when it joins, of
    whatever mode: when new sessions join one after the other into a store
    of [n] players, the [i]-th of them (from 0) gets the team numbered
    [(n + i) / 2] in duo and [(n + i) / 4] otherwise. *)
Theorem team_by_arrival mode js g i j :
  String.eqb mode "solo" = false ->
  NoDup (map j_sid js) ->
  (forall j', In j' js -> Players.get (j_sid j') (players g) = None) ->
  nth_error js i = Some j ->
  exists p,
    Players.get (j_sid j) (players (join_each mode js g)) = Some p
    /\ Player.teamId p
       = team_name mode (List.length (Players.keys (players g)) + i).
Proof.
  revert g i j.
  induction js as [|j0 rest IH]; intros g i j Hm Hnd Hfresh Hnth.
  - destruct i; discriminate.
  - simpl in Hnd. apply NoDup_cons_iff in Hnd. destruct Hnd as [Hnot Hnd].
    cbn [join_each fold_left].
    change (fold_left _ rest ?g0) with (join_each mode rest g0).
    destruct i as [|i]; simpl in Hnth.
    + injection Hnth as ->.
      rewrite join_each_keeps by exact Hnot.
      destruct (join_team (j_sid j) (j_name j) mode (j_rx j) (j_ry j) g)
        as (p & G & T).
      exists p. split; [exact G|].
      now rewrite T, Nat.add_0_r, team_of_not_solo.
    + assert (F0 : Players.get (j_sid j0) (players g) = None)
        by (apply Hfresh; simpl; auto).
      destruct (IH (fst (on_join (j_sid j0) (j_name j0) mode (j_rx j0) (j_ry j0) g))
                  i j Hm Hnd) as (p & G & T); auto.
      * intros j' Hin. apply join_other_absent.
        -- intros E. apply Hnot. rewrite <- E. now apply in_map.
        -- apply Hfresh. simpl. auto.
      * exists p. split; [exact G|].
        rewrite T, join_fresh_count by exact F0.
        f_equal. lia.
Qed.

Lemma team_by_arrival_witness :
  exists p,
    Players.get "s5"
      (players
         (join_each "ranked"
            [mkJoiner "s1" "a" 0.5 0.5; mkJoiner "s2" "b" 0.5 0.5;
             mkJoiner "s3" "c" 0.5 0.5; mkJoiner "s4" "d" 0.5 0.5;
             mkJoiner "s5" "e" 0.5 0.5] gameState))
    = Some p
    /\ Player.teamId p = team_name "ranked" (0 + 4).
Proof.
  apply (team_by_arrival "ranked"
           [mkJoiner "s1" "a" 0.5 0.5; mkJoiner "s2" "b" 0.5 0.5;
            mkJoiner "s3" "c" 0.5 0.5; mkJoiner "s4" "d" 0.5 0.5;
            mkJoiner "s5" "e" 0.5 0.5] gameState 4
           (mkJoiner "s5" "e" 0.5 0.5)).
  - reflexivity.
  - repeat constructor; simpl; intuition discriminate.
  - intros j' _. reflexivity.
  - reflexivity.
Defined.

(** X19. When the store holds an odd number of players, two new sessions
    that join duo mode one after the other are put in different teams: the
    first completes the pair that was open, the second opens the next. *)
Theorem duo_pair_is_split_by_odd_count g s1 s2 n1 n2 x1 y1 x2 y2 :
  Nat.odd (List.length (Players.keys (players g))) = true ->
  s1 <> s2 ->
  Players.get s1 (players g) = None ->
  Players.get s2 (players g) = None ->
  let g1 := fst (on_join s1 n1 "duo" x1 y1 g) in
  let g2 := fst (on_join s2 n2 "duo" x2 y2 g1) in
  exists p1 p2,
    Players.get s1 (players g2) = Some p1
    /\ Players.get s2 (players g2) = Some p2
    /\ Player.teamId p1 <> Player.teamId p2.
Proof.
  intros Hodd Hne F1 F2 g1 g2.
  apply Nat.odd_spec in Hodd. destruct Hodd as [m Hm].
  pose proof (join_fresh_count s1 n1 "duo" x1 y1 g F1) as C1. fold g1 in C1.
  destruct (join_team s1 n1 "duo" x1 y1 g) as (p1 & G1 & T1). fold g1 in G1.
  destruct (join_team s2 n2 "duo" x2 y2 g1) as (p2 & G2 & T2). fold g2 in G2.
  exists p1, p2. repeat split.
  - unfold g2. apply join_keeps_other; auto.
  - exact G2.
  - rewrite T1, T2, !team_of_duo, C1, Hm.
    replace (2 * m + 1) with (2 * m + 1) by reflexivity.
    rewrite (half_of_pair m 1) by lia.
    replace (S (2 * m + 1)) with (2 * S m + 0) by lia.
    rewrite (half_of_pair (S m) 0) by lia.
    intros H. simpl in H. injection H as H.
    apply number_to_string_inj in H. lia.
Qed.

Lemma duo_pair_is_split_by_odd_count_witness :
  let g := fst (on_join "solo1" "s" "solo" 0.5 0.5 gameState) in
  let g1 := fst (on_join "d1" "a" "duo" 0.5 0.5 g) in
  let g2 := fst (on_join "d2" "b" "duo" 0.5 0.5 g1) in
  exists p1 p2,
    Players.get "d1" (players g2) = Some p1
    /\ Players.get "d2" (players g2) = Some p2
    /\ Player.teamId p1 <> Player.teamId p2.
Proof.
  intros g.
  apply (duo_pair_is_split_by_odd_count g "d1" "d2").
  - reflexivity.
  - discriminate.
  - reflexivity.
  - reflexivity.
Defined.

(** ** The client *)

Lemma keys_get_set k k' v keys :
  Keys.get k' (Keys.set k v keys)
  = if String.eqb k' k then Some v else Keys.get k' keys.
Proof.
  induction keys as [|[k0 v0] rest IH]; simpl.
  - now destruct (String.eqb k' k).
  - destruct (String.eqb k k0) eqn:E; simpl.
    + apply String.eqb_eq in E. subst k0. now destruct (String.eqb k' k).
    + rewrite IH. destruct (String.eqb k' k) eqn:E'; auto.
      apply String.eqb_eq in E'. subst k'. now rewrite E.
Qed.

(** X20. A key reads as pressed exactly from its last key-down until its
    next key-up, whatever happens to the other keys; a key never touched
    reads as not pressed. *)
Theorem key_state_follows_the_handlers k k' keys :
  Keys.down (Keys.handleKeyDown k keys) k = true
  /\ Keys.down (Keys.handleKeyUp k keys) k = false
  /\ (String.eqb k' k = false ->
      Keys.down (Keys.handleKeyDown k keys) k' = Keys.down keys k'
      /\ Keys.down (Keys.handleKeyUp k keys) k' = Keys.down keys k')
  /\ Keys.down [] k = false.
Proof.
  unfold Keys.down, Keys.handleKeyDown, Keys.handleKeyUp.
  rewrite !keys_get_set, String.eqb_refl.
  split; [reflexivity|]. split; [reflexivity|]. split; [|reflexivity].
  intros Hne. rewrite Hne. split; reflexivity.
Qed.

(** X21. The movement timer sends a move exactly when the player is in the
    state, alive, and the pressed keys do not cancel out (up against down,
    left against right); the move it sends is one step of 5 along each
    axis asked for, from the position the client knows, with the angle
    unchanged. *)
Theorem moveInterval_sends_one_step keys me :
  moveInterval keys None = None
  /\ moveInterval keys (Some me)
  = if Player.isDead me
       || (Bool.eqb (wants_up keys) (wants_down keys)
           && Bool.eqb (wants_left keys) (wants_right keys))
    then None
    else
      Some ((Player.x me
             + (if Bool.eqb (wants_left keys) (wants_right keys) then 0
                else if wants_left keys then -5 else 5))%float,
            (Player.y me
             + (if Bool.eqb (wants_up keys) (wants_down keys) then 0
                else if wants_up keys then -5 else 5))%float,
            Player.angle me).
Proof.
  split; [reflexivity|].
  unfold moveInterval, wants_up, wants_down, wants_left, wants_right.
  destruct (Player.isDead me); [reflexivity|].
  destruct (Keys.down keys "w" || Keys.down keys "arrowup");
    destruct (Keys.down keys "s" || Keys.down keys "arrowdown");
    destruct (Keys.down keys "a" || Keys.down keys "arrowleft");
    destruct (Keys.down keys "d" || Keys.down keys "arrowright");
    reflexivity.
Qed.

(** *** Survivors *)

Lemma aliveCount_cons k p ps :
  aliveCount ((k, p) :: ps)
  = (if Player.isDead p then 0 else 1) + aliveCount ps.
Proof.
  unfold aliveCount. simpl. now destruct (Player.isDead p).
Qed.

Lemma aliveCount_monotone ps : forall ps',
  Players.keys ps' = Players.keys ps ->
  NoDup (Players.keys ps) ->
  (forall k q,
      Players.get k ps = Some q -> Player.isDead q = true ->
      exists q', Players.get k ps' = Some q' /\ Player.isDead q' = true) ->
  aliveCount ps' <= aliveCount ps.
Proof.
  induction ps as [|[k p] rest IH]; intros ps' Hk Hnd Hdead.
  - destruct ps'; [auto | discriminate].
  - destruct ps' as [|[k' p'] rest']; [discriminate|].
    simpl in Hk. injection Hk as -> Hk.
    simpl in Hnd. apply NoDup_cons_iff in Hnd. destruct Hnd as [Hnot Hnd].
    rewrite !aliveCount_cons.
    assert (Hrest : aliveCount rest' <= aliveCount rest).
    { apply IH; auto. intros k0 q G D.
      assert (Hne : k0 <> k).
      { intros ->. apply Hnot. now apply get_in_keys with q. }
      apply String.eqb_neq in Hne.
      destruct (Hdead k0 q) as (q' & G' & D'); auto.
      - simpl. now rewrite Hne.
      - simpl in G'. rewrite Hne in G'. eauto. }
    destruct (Player.isDead p) eqn:Dp.
    + destruct (Hdead k p) as (q' & G' & D'); auto.
      * simpl. now rewrite String.eqb_refl.
      * simpl in G'. rewrite String.eqb_refl in G'. injection G' as ->.
        rewrite D'. lia.
    + destruct (Player.isDead p'); lia.
Qed.

(** X22. The number of survivors the client shows never goes up over a
    turn of the game loop: from a state the server can reach, the alive
    count after the turn is at most the alive count before. *)
Theorem survivors_never_increase_in_a_tick {M : MathLib} g :
  reachable g ->
  aliveCount (players (fst (tick g))) <= aliveCount (players g).
Proof.
  intros Hr. apply aliveCount_monotone.
  - apply tick_keys.
  - now apply nodup_keys_reachable.
  - intros k q G D. destruct (dead_tick g k q G D) as (q' & G' & _ & D').
    eauto.
Qed.

Lemma survivors_never_increase_in_a_tick_witness :
  aliveCount (players (fst (tick (fst (run gameState fifth_shot)))))
  <= aliveCount (players (fst (run gameState fifth_shot))).
Proof.
  apply (survivors_never_increase_in_a_tick (fst (run gameState fifth_shot))).
  apply run_reachable. constructor.
Defined.

(** ** What a turn of the loops never does *)

(** X23. A turn of the bullet loop leaves the health and the dead flag of
    every player that does not pass the hit test for its bullet: the dead,
    the players of the bullet's team, the player whose id is the owner's,
    and those 20 or more away from where the bullet now is. *)
Theorem only_players_in_reach_are_hit {M : MathLib} i g b0 k q :
  nth_error (bullets g) i = Some b0 ->
  Players.get k (players g) = Some q ->
  qualifies (advance b0) q = false ->
  exists q',
    Players.get k (players (fst (bullet_body i g))) = Some q'
    /\ Player.health q' = Player.health q
    /\ Player.isDead q' = Player.isDead q.
Proof.
  intros Hb Hq Hn.
  destruct (bullet_body_outcome i g) as [N | b N D | b pid p N D S | b N D S];
    cbn [fst players]; eauto.
  rewrite Hb in N. injection N as <-.
  apply scan_found in S. destruct S as (_ & Hp & Hc & Hd).
  assert (Hne : k <> pid).
  { intros ->. rewrite Hp in Hq. injection Hq as ->.
    unfold qualifies in Hn. rewrite Hc, Hd in Hn. discriminate. }
  now apply apply_hit_other.
Qed.

Lemma only_players_in_reach_are_hit_witness :
  let g := fst (run gameState fifth_shot) in
  exists q',
    Players.get "A" (players (fst (bullet_body 0 g))) = Some q'
    /\ Player.health q' = 100%float
    /\ Player.isDead q' = false.
Proof.
  intros g.
  apply (only_players_in_reach_are_hit 0 g
           (Bullet.mk "b5" "A" "A" 1000 1000 0 15 0 600) "A"
           (Player.mk "A" "Player" 1000 1000 100 "A" 0 false 0)).
  - vm_compute. reflexivity.
  - vm_compute. reflexivity.
  - vm_compute. reflexivity.
Defined.

Lemma no_update_in_bullet_body {M : MathLib} i g g' :
  ~ In (gameStateUpdate g') (snd (bullet_body i g)).
Proof.
  destruct (bullet_body_outcome i g) as [N | b N D | b pid p N D S | b N D S];
    cbn [snd]; try (intros []).
  rewrite apply_hit_out.
  destruct (Player.health p - 20 <=? 0)%float; simpl; intuition discriminate.
Qed.

Lemma no_update_in_bullet_loop {M : MathLib} n : forall g g',
  ~ In (gameStateUpdate g') (snd (bullet_loop n g)).
Proof.
  induction n as [|i IH]; intros g g'; simpl; [intros []|].
  pose proof (no_update_in_bullet_body i g g') as H1.
  destruct (bullet_body i g) as [g1 out1].
  specialize (IH g1 g').
  destruct (bullet_loop i g1) as [g2 out2]. cbn [snd] in *.
  intros Hin. apply in_app_or in Hin. tauto.
Qed.

Lemma no_update_in_zone_loop {M : MathLib} z pids : forall ps g',
  ~ In (gameStateUpdate g') (snd (zone_loop z pids ps)).
Proof.
  induction pids as [|pid rest IH]; intros ps g'; simpl; [intros []|].
  assert (H1 : ~ In (gameStateUpdate g') (snd (zone_body z pid ps))).
  { unfold zone_body. destruct (Players.get pid ps) as [p|]; [|intros []].
    destruct (Player.isDead p); [intros []|]. cbn [negb].
    destruct (Zone.radius z <? _)%float; [|intros []].
    destruct (Player.health _ <=? 0)%float; simpl; intuition discriminate. }
  destruct (zone_body z pid ps) as [ps1 out1].
  specialize (IH ps1 g').
  destruct (zone_loop z rest ps1) as [ps2 out2]. cbn [snd] in *.
  intros Hin. apply in_app_or in Hin. tauto.
Qed.

(** X24. A turn of the game loop broadcasts the state once, after everything
    else it sends, and what it broadcasts is the state the turn ends in. *)
Theorem tick_publishes_the_final_state {M : MathLib} g :
  exists out,
    snd (tick g) = out ++ [gameStateUpdate (fst (tick g))]
    /\ forall g', ~ In (gameStateUpdate g') out.
Proof.
  unfold tick.
  pose proof (no_update_in_bullet_loop (List.length (bullets g)) g) as H1.
  destruct (bullet_loop _ g) as [g1 out1]. cbn [snd] in H1.
  pose proof (no_update_in_zone_loop (shrink (zone g1))
                (Players.keys (players g1)) (players g1)) as H2.
  destruct (zone_loop _ _ (players g1)) as [ps out2]. cbn [fst snd] in *.
  exists (out1 ++ out2). split; [now rewrite app_assoc|].
  intros g' Hin. apply in_app_or in Hin. destruct Hin; [now apply (H1 g') | now apply (H2 g')].
Qed.

(** ** Properties of the players that damage keeps

    A property of single players that holds of a new player, and that a move,
    a kill credit and the damage of a hit or of the zone to a living player
    keep, holds of every player of every reachable state. *)

Section DamageInvariant.
Context {M : MathLib}.
Variable I : Player.t -> Prop.
Hypothesis I_new : forall sid name x y team,
  I (Player.mk sid name x y 100 team 0 false 0).
Hypothesis I_move : forall p x y a, I p -> I (Player.with_position p x y a).
Hypothesis I_kills : forall p n, I p -> I (Player.with_kills p n).
Hypothesis I_hit : forall p, I p -> Player.isDead p = false -> I (damaged 20 p).
Hypothesis I_zone : forall p, I p -> Player.isDead p = false -> I (damaged 0.5 p).

Definition all_players (ps : Players.t) : Prop :=
  forall k p, Players.get k ps = Some p -> I p.

Lemma all_players_set k v ps :
  all_players ps -> I v -> all_players (Players.set k v ps).
Proof.
  intros H Hv k' p. rewrite get_set.
  destruct (String.eqb k' k); [now intros [= <-] | apply H].
Qed.

Lemma all_players_set_twice k v w ps :
  all_players ps -> I v -> all_players (Players.set k v (Players.set k w ps)).
Proof.
  intros H Hv k' p. rewrite !get_set.
  destruct (String.eqb k' k); [now intros [= <-] | apply H].
Qed.

Lemma all_players_apply_hit b pid p ps :
  Players.get pid ps = Some p ->
  Player.isDead p = false ->
  all_players ps ->
  all_players (fst (apply_hit b pid p ps)).
Proof.
  intros Hp Ha H. pose proof (I_hit p (H pid p Hp) Ha) as Hd.
  unfold damaged in Hd. unfold apply_hit.
  destruct (Player.health _ <=? 0)%float; cbn [fst].
  - assert (H2 : all_players
                   (Players.set pid
                      (Player.with_isDead
                         (Player.with_health p (Player.health p - 20)%float) true)
                      (Players.set pid
                         (Player.with_health p (Player.health p - 20)%float) ps)))
      by now apply all_players_set_twice.
    destruct (Players.get (Bullet.ownerId b) _) as [killer|] eqn:K; auto.
    apply all_players_set; auto. apply I_kills. now apply (H2 _ _ K).
  - now apply all_players_set.
Qed.

Lemma all_players_bullet_loop n : forall g,
  all_players (players g) -> all_players (players (fst (bullet_loop n g))).
Proof.
  induction n as [|i IH]; intros g H; simpl; auto.
  assert (H1 : all_players (players (fst (bullet_body i g)))).
  { destruct (bullet_body_outcome i g) as [N | b N D | b pid p N D S | b N D S];
      cbn [fst players]; auto.
    apply scan_found in S. destruct S as (_ & Hp & Hc & _).
    apply all_players_apply_hit; auto. now apply candidate_alive in Hc. }
  destruct (bullet_body i g) as [g1 out1]. cbn [fst] in H1.
  specialize (IH g1 H1).
  now destruct (bullet_loop i g1).
Qed.

Lemma all_players_zone_loop z pids : forall ps,
  all_players ps -> all_players (fst (zone_loop z pids ps)).
Proof.
  induction pids as [|pid rest IH]; intros ps H; simpl; auto.
  assert (H1 : all_players (fst (zone_body z pid ps))).
  { unfold zone_body. destruct (Players.get pid ps) as [p|] eqn:G; auto.
    destruct (Player.isDead p) eqn:Dp; cbn [negb]; auto.
    destruct (Zone.radius z <? _)%float; auto.
    pose proof (I_zone p (H pid p G) Dp) as Hd. unfold damaged in Hd.
    destruct (Player.health _ <=? 0)%float; cbn [fst];
      now apply all_players_set. }
  destruct (zone_body z pid ps) as [ps1 out1]. cbn [fst] in H1.
  specialize (IH ps1 H1).
  now destruct (zone_loop z rest ps1).
Qed.

Lemma all_players_tick g :
  all_players (players g) -> all_players (players (fst (tick g))).
Proof.
  intros H. unfold tick.
  pose proof (all_players_bullet_loop (List.length (bullets g)) g H) as H1.
  destruct (bullet_loop _ g) as [g1 out1]. cbn [fst] in H1.
  pose proof (all_players_zone_loop (shrink (zone g1))
                (Players.keys (players g1)) (players g1) H1) as H2.
  now destruct (zone_loop _ _ (players g1)).
Qed.

Lemma all_players_step g i :
  all_players (players g) -> all_players (players (fst (step g i))).
Proof.
  intros H. destruct i as [sid name mode rx ry | sid x y a | sid nid | sid |];
    cbn [step].
  - unfold on_join. cbn [fst players]. now apply all_players_set.
  - unfold on_move. destruct (Players.get sid (players g)) as [p|] eqn:G; auto.
    destruct (Player.isDead p); cbn [negb fst players]; auto.
    apply all_players_set; auto. apply I_move. now apply (H sid).
  - unfold on_shoot. destruct (Players.get sid (players g)) as [p|]; auto.
    now destruct (Player.isDead p).
  - unfold on_disconnect. cbn [fst players]. intros k p. rewrite get_delete.
    destruct (String.eqb k sid); [discriminate | apply H].
  - now apply all_players_tick.
Qed.

Lemma all_players_reachable g : reachable g -> all_players (players g).
Proof.
  induction 1 as [|g i _ IH].
  - intros k p H. discriminate H.
  - now apply all_players_step.
Qed.
End DamageInvariant.

(** ** The range of health *)

Lemma half_point_facts n :
  n <= 239 ->
  (half_points n <=? 0)%float = Nat.leb n 39
  /\ (-19.5 <=? half_points n)%float = true
  /\ (half_points n <=? 100)%float = true
  /\ (40 <= n ->
      (half_points n - 20)%float = half_points (n - 40)
      /\ (half_points n - 0.5)%float = half_points (n - 1)).
Proof.
  intros Hn.
  assert (H : half_point_ok n = true).
  { revert n Hn. apply forallb_below. vm_compute. reflexivity. }
  unfold half_point_ok in H.
  rewrite !andb_true_iff in H. destruct H as [[[H1 H2] H3] H4].
  apply Bool.eqb_prop in H1.
  repeat split; auto.
  - apply orb_true_iff in H4. destruct H4 as [H4|H4].
    + apply Nat.ltb_lt in H4. lia.
    + apply andb_true_iff in H4. now apply FloatAxioms.Leibniz.eqb_spec.
  - apply orb_true_iff in H4. destruct H4 as [H4|H4].
    + apply Nat.ltb_lt in H4. lia.
    + apply andb_true_iff in H4. now apply FloatAxioms.Leibniz.eqb_spec.
Qed.

Lemma sound_health_damaged d k p :
  (d = 20%float /\ k = 40) \/ (d = 0.5%float /\ k = 1) ->
  sound_health p -> Player.isDead p = false -> sound_health (damaged d p).
Proof.
  intros Hd (n & Hn & Hh & Ha) Halive. specialize (Ha Halive).
  destruct (half_point_facts n Hn) as (_ & _ & _ & Hsub).
  destruct (Hsub Ha) as [H20 H05].
  assert (Hnew : (Player.health p - d)%float = half_points (n - k)).
  { destruct Hd as [[-> ->]|[-> ->]]; now rewrite Hh. }
  assert (Hk : 1 <= k <= 40) by (destruct Hd as [[_ ->]|[_ ->]]; lia).
  assert (Hnk : n - k <= 239) by lia.
  destruct (half_point_facts (n - k) Hnk) as (Hle & _).
  unfold damaged. cbn [Player.health Player.with_health].
  rewrite Hnew, Hle.
  destruct (Nat.leb (n - k) 39) eqn:E.
  - exists (n - k). cbn [Player.health Player.isDead Player.with_isDead
                          Player.with_health].
    split; [lia|]. split; [reflexivity | discriminate].
  - apply Nat.leb_gt in E.
    exists (n - k). cbn [Player.health Player.isDead Player.with_health].
    split; [lia|]. split; [reflexivity | intros _; lia].
Qed.

Lemma sound_health_reachable {M : MathLib} g k p :
  reachable g -> Players.get k (players g) = Some p -> sound_health p.
Proof.
  intros Hr G.
  assert (H1 : forall sid name x y team,
             sound_health (Player.mk sid name x y 100 team 0 false 0)).
  { intros. exists 239. split; [lia|]. split; [reflexivity | intros _; lia]. }
  assert (H2 : forall q x y a,
             sound_health q -> sound_health (Player.with_position q x y a)).
  { intros q x y a (n & Hn & Hh & Ha). exists n. auto. }
  assert (H3 : forall q m,
             sound_health q -> sound_health (Player.with_kills q m)).
  { intros q m (n & Hn & Hh & Ha). exists n. auto. }
  assert (H4 : forall q, sound_health q -> Player.isDead q = false ->
                         sound_health (damaged 20 q)).
  { intros q. apply (sound_health_damaged 20 40). auto. }
  assert (H5 : forall q, sound_health q -> Player.isDead q = false ->
                         sound_health (damaged 0.5 q)).
  { intros q. apply (sound_health_damaged 0.5 1). auto. }
  exact (all_players_reachable sound_health H1 H2 H3 H4 H5 g Hr k p G).
Qed.

(** X25. In every state the server can reach, the health of every player is
    a half point between -19.5 and 100, and a living player has at least
    0.5. *)
Theorem health_stays_in_range {M : MathLib} g k p :
  reachable g ->
  Players.get k (players g) = Some p ->
  (exists n, n <= 239 /\ Player.health p = half_points n)
  /\ (-19.5 <=? Player.health p)%float = true
  /\ (Player.health p <=? 100)%float = true
  /\ (Player.isDead p = false -> (0.5 <=? Player.health p)%float = true).
Proof.
  intros Hr G.
  pose proof (sound_health_reachable g k p Hr G) as H.
  destruct H as (n & Hn & Hh & Ha).
  destruct (half_point_facts n Hn) as (_ & Hlo & Hhi & _).
  rewrite Hh. repeat split; auto.
  - now exists n.
  - intros Halive. specialize (Ha Halive).
    assert (E : forall m, m <= 239 ->
                (Nat.ltb m 40 || (0.5 <=? half_points m)%float) = true).
    { apply forallb_below. vm_compute. reflexivity. }
    specialize (E n Hn). apply orb_true_iff in E. destruct E as [E|E]; auto.
    apply Nat.ltb_lt in E. lia.
Qed.

Lemma health_stays_in_range_witness :
  (exists n,
      n <= 239
      /\ Player.health (Player.mk "B" "bob" 1015.625 1000 0 "B" 0 true 0)
         = half_points n)
  /\ (-19.5 <=? Player.health (Player.mk "B" "bob" 1015.625 1000 0 "B" 0 true 0))%float
     = true
  /\ (Player.health (Player.mk "B" "bob" 1015.625 1000 0 "B" 0 true 0) <=? 100)%float
     = true
  /\ (Player.isDead (Player.mk "B" "bob" 1015.625 1000 0 "B" 0 true 0) = false ->
      (0.5 <=? Player.health (Player.mk "B" "bob" 1015.625 1000 0 "B" 0 true 0))%float
      = true).
Proof.
  apply (health_stays_in_range (fst (run gameState last_stand)) "B").
  - apply run_reachable. constructor.
  - vm_compute. reflexivity.
Defined.

Lemma half_points_monotone n n0 :
  n <= n0 -> n0 <= 239 -> (half_points n <=? half_points n0)%float = true.
Proof.
  intros Hn Hn0.
  assert (Hall : forall m, m <= 239 -> below_half_point m = true).
  { apply forallb_below. vm_compute. reflexivity. }
  pose proof (Hall n0 Hn0) as H.
  unfold below_half_point in H. exact (forallb_below _ n0 H n Hn).
Qed.

Lemma damaged_id d p : Player.id (damaged d p) = Player.id p.
Proof.
  unfold damaged. now destruct (Player.health _ <=? 0)%float.
Qed.

Lemma damaged_steps_down d k p n :
  (d = 20%float /\ k = 40) \/ (d = 0.5%float /\ k = 1) ->
  Player.health p = half_points n ->
  40 <= n <= 239 ->
  Player.health (damaged d p) = half_points (n - k)
  /\ (Player.isDead (damaged d p) = false -> 40 <= n - k).
Proof.
  intros Hd Hh Hn.
  destruct (half_point_facts n ltac:(lia)) as (_ & _ & _ & Hsub).
  destruct (Hsub ltac:(lia)) as [H20 H05].
  assert (Hnew : (Player.health p - d)%float = half_points (n - k)).
  { destruct Hd as [[-> ->]|[-> ->]]; now rewrite Hh. }
  assert (Hk : 1 <= k <= 40) by (destruct Hd as [[_ ->]|[_ ->]]; lia).
  assert (Hnk : n - k <= 239) by lia.
  destruct (half_point_facts (n - k) Hnk) as (Hle & _).
  unfold damaged. cbn [Player.health Player.with_health].
  rewrite Hnew, Hle.
  destruct (Nat.leb (n - k) 39) eqn:E.
  - cbn [Player.health Player.isDead Player.with_isDead Player.with_health].
    split; [reflexivity | discriminate].
  - apply Nat.leb_gt in E.
    cbn [Player.health Player.isDead Player.with_health].
    split; [reflexivity | intros _; lia].
Qed.

(** X26. Over a turn of the game loop, from a state the server can reach,
    the health of a player never goes up. *)
Theorem health_never_rises_in_a_tick {M : MathLib} g k q :
  reachable g ->
  Players.get k (players g) = Some q ->
  exists q',
    Players.get k (players (fst (tick g))) = Some q'
    /\ (Player.health q' <=? Player.health q)%float = true.
Proof.
  intros Hr G.
  destruct (tick_get_some g k q G) as [q' G']. exists q'. split; [exact G'|].
  pose (I := fun p : Player.t =>
               forall q0, Players.get (Player.id p) (players g) = Some q0 ->
                 exists n0 n,
                   n <= n0 /\ n0 <= 239
                   /\ Player.health q0 = half_points n0
                   /\ Player.health p = half_points n
                   /\ (Player.isDead p = false -> 40 <= n)).
  assert (Hstart : all_players I (players g)).
  { intros k0 p Gp q0 G0.
    rewrite (own_id_reachable g Hr k0 p Gp), Gp in G0. injection G0 as <-.
    destruct (sound_health_reachable g k0 p Hr Gp) as (n & Hn & Hh & Ha).
    exists n, n. auto. }
  assert (Hdmg : forall d j, (d = 20%float /\ j = 40) \/ (d = 0.5%float /\ j = 1) ->
                 forall p, I p -> Player.isDead p = false -> I (damaged d p)).
  { intros d j Hd p Hp Ha q0 G0. rewrite damaged_id in G0.
    destruct (Hp q0 G0) as (n0 & n & Hle & Hn0 & Hq0 & Hh & Hal).
    specialize (Hal Ha).
    destruct (damaged_steps_down d j p n Hd Hh ltac:(lia)) as [Hh' Ha'].
    exists n0, (n - j). repeat split; auto. lia. }
  assert (Hend : all_players I (players (fst (tick g)))).
  { assert (HK : forall p m, I p -> I (Player.with_kills p m)).
    { intros p m Hp q0 G0. destruct (Hp q0 G0) as (n0 & n & H).
      exists n0, n. exact H. }
    assert (H20 : forall p, I p -> Player.isDead p = false -> I (damaged 20 p)).
    { apply (Hdmg 20%float 40). auto. }
    assert (H05 : forall p, I p -> Player.isDead p = false -> I (damaged 0.5 p)).
    { apply (Hdmg 0.5%float 1). auto. }
    exact (all_players_tick I HK H20 H05 g Hstart). }
  assert (Hid : Player.id q' = k).
  { apply (own_id_reachable (fst (tick g)) (reachable_tick g Hr) k q' G'). }
  destruct (Hend k q' G' q) as (n0 & n & Hle & Hn0 & Hq & Hq' & _).
  { now rewrite Hid. }
  rewrite Hq, Hq'. now apply half_points_monotone.
Qed.

Lemma health_never_rises_in_a_tick_witness :
  let g := fst (run gameState fifth_shot) in
  exists q',
    Players.get "B" (players (fst (tick g))) = Some q'
    /\ (Player.health q' <=? 20)%float = true.
Proof.
  intros g.
  apply (health_never_rises_in_a_tick g "B"
           (Player.mk "B" "bob" 1015.625 1000 20 "B" 0 false 0)).
  - apply run_reachable. constructor.
  - vm_compute. reflexivity.
Defined.

(** ** Closed instances *)

Lemma disconnect_removes_one_player_witness :
  Players.get "B" (players (fst (on_disconnect "A" (fst (run gameState fifth_shot)))))
  = Players.get "B" (players (fst (run gameState fifth_shot))).
Proof.
  apply (proj1 (proj2 (disconnect_removes_one_player "A"
                         (fst (run gameState fifth_shot))))).
  reflexivity.
Defined.

Lemma key_state_follows_the_handlers_witness :
  Keys.down (Keys.handleKeyDown "w" [("d", true)]) "d" = Keys.down [("d", true)] "d"
  /\ Keys.down (Keys.handleKeyUp "w" [("d", true)]) "d" = Keys.down [("d", true)] "d".
Proof.
  apply (proj1 (proj2 (proj2 (key_state_follows_the_handlers "w" "d" [("d", true)])))).
  reflexivity.
Defined.

Lemma zone_radius_non_increasing_witness :
  (Zone.radius (zone (fst (tick (fst (run gameState last_stand)))))
   <=? Zone.radius (zone (fst (run gameState last_stand))))%float = true.
Proof.
  apply (zone_radius_non_increasing (fst (run gameState last_stand))).
  apply run_reachable. constructor.
Defined.
